(** * GoogleCalendarService (src/lib/calendar.ts): a shallow embedding

    The service resolves a user's stored OAuth credential, enumerates the
    user's calendars, aggregates paginated event listings over a selection
    of calendars, forwards create / update / delete requests for single
    events, and turns remote failures into user-facing errors.

    The remote provider, the clock and the credential table are the
    environment.  Every method is a state-passing function over a [World];
    each remote call is recorded in a ghost log so that statements about
    which requests were issued can be made. *)

From Stdlib Require Import String Ascii List ZArith Bool Arith Lia.
Import ListNotations.
Local Open Scope string_scope.
Local Open Scope list_scope.

(** ** JavaScript values as the code uses them *)

Module Js.

(** [if (s)] on a [string | null | undefined]: absent and empty are falsy. *)
Definition truthy (o : option string) : bool :=
  match o with
  | Some s => negb (s =? "")
  | None => false
  end.

(** [a || b] on optional strings. *)
Definition or_else (a b : option string) : option string :=
  if truthy a then a else b.

(** A template literal's rendering of a possibly undefined string. *)
Definition template (o : option string) : string :=
  match o with
  | Some s => s
  | None => "undefined"
  end.

(** [hay.includes(needle)]. *)
Fixpoint includes (needle hay : string) : bool :=
  if String.prefix needle hay then true
  else match hay with
       | EmptyString => false
       | String _ rest => includes needle rest
       end.

(** [o?.includes(needle)] used as a condition: undefined is falsy. *)
Definition opt_includes (needle : string) (o : option string) : bool :=
  match o with
  | Some s => includes needle s
  | None => false
  end.

(** The loosely typed [code] / [status] properties of a caught error. *)
Inductive value :=
| Undefined
| Number (n : Z)
| Str (s : string).

(** [v === n] for a numeric literal [n]. *)
Definition strict_eq_num (v : value) (n : Z) : bool :=
  match v with
  | Number m => Z.eqb m n
  | _ => false
  end.

End Js.

(** ** Errors *)

(** What a [catch (error: any)] clause reads from the caught value:
    [error.message], [error.code], [error.status] and
    [error.response?.data?.error?.message]. *)
Record JsError := {
  message : option string;
  code : Js.value;
  status : Js.value;
  response_message : option string
}.

(** [new Error(msg)]. *)
Definition mkError (msg : string) : JsError :=
  {| message := Some msg; code := Js.Undefined; status := Js.Undefined;
     response_message := None |}.

(** ** Data model *)

(** A row of the [accounts] table. *)
Record Account := {
  userId : string;
  accessToken : option string;
  refreshToken : option string;
  scope : option string;
  updatedAt : Z
}.

(** The client handle returned by [getCalendarClient]: the OAuth2 client's
    credentials, and the user its [tokens] listener was registered for. *)
Record Client := {
  access_token : string;
  refresh_token : option string;
  owner : string
}.

Record CalendarListEntry := {
  cal_id : string;
  cal_summary : option string;
  cal_primary : bool;
  cal_accessRole : option string
}.

Record EventTime := {
  dateTime : string;
  timeZone : option string
}.

Record Event := {
  id : string;
  summary : option string;
  description : option string;
  start : option EventTime;
  end_ : option EventTime;
  attendees : list string;
  ev_status : option string;
  calendarId : option string
}.

(** [item.calendarId = calId].  The items of a response are freshly parsed
    values, no two of them the same object, so that tagging one does not
    change another. *)
Definition set_calendarId (calId : string) (item : Event) : Event :=
  {| id := id item; summary := summary item; description := description item;
     start := start item; end_ := end_ item; attendees := attendees item;
     ev_status := ev_status item; calendarId := Some calId |}.

(** The argument of [createEvent]. *)
Record EventDraft := {
  d_summary : string;
  d_description : option string;
  d_start : EventTime;
  d_end : EventTime;
  d_attendees : option (list string)
}.

(** The argument of [updateEvent]: every field optional. *)
Record PartialEventDraft := {
  p_summary : option string;
  p_description : option string;
  p_start : option EventTime;
  p_end : option EventTime;
  p_attendees : option (list string)
}.

(** The parameters of [calendar.events.list]. *)
Record EventsListParams := {
  q_calendarId : string;
  q_timeMin : string;
  q_timeMax : option string;
  q_maxResults : Z;
  q_singleEvents : bool;
  q_orderBy : string;
  q_pageToken : option string
}.

(** [response.data] of [calendar.events.list]. *)
Record EventsData := {
  items : option (list Event);
  nextPageToken : option string
}.

(** The [calendarId] argument of [getEvents]: [string | string[]]. *)
Inductive CalendarSel :=
| One (calId : string)
| Many (calIds : list string).

(** ** The remote provider and the world *)

(** The requests the service sends. *)
Inductive Request :=
| CalendarListList
| EventsList (params : EventsListParams)
| EventsInsert (calId : string) (requestBody : EventDraft)
| EventsUpdate (calId eventId : string) (requestBody : PartialEventDraft)
| EventsDelete (calId eventId : string).

(** The provider is any state machine answering those requests; its state
    also carries the wall clock. *)
Record Provider := {
  Remote : Type;
  now_iso : Remote -> string;
  calendarList_list :
    Client -> Remote -> (JsError + option (list CalendarListEntry)) * Remote;
  events_list :
    Client -> EventsListParams -> Remote -> (JsError + EventsData) * Remote;
  events_insert :
    Client -> string -> EventDraft -> Remote -> (JsError + Event) * Remote;
  events_update :
    Client -> string -> string -> PartialEventDraft -> Remote ->
    (JsError + Event) * Remote;
  events_delete :
    Client -> string -> string -> Remote -> (JsError + unit) * Remote
}.

Record World (P : Provider) := {
  db : list Account;
  remote : Remote P;
  log : list Request
}.
Arguments db {P} _.
Arguments remote {P} _.
Arguments log {P} _.

(** ** Outcomes and the method monad *)

(** An [async] method resolves, rejects, or (the pagination loop having no
    bound of its own) is still running when the fuel is spent. *)
Inductive Res (A : Type) :=
| Ret (a : A)
| Throw (e : JsError)
| Diverge.
Arguments Ret {A} _.
Arguments Throw {A} _.
Arguments Diverge {A}.

Definition M (P : Provider) (A : Type) : Type := World P -> Res A * World P.

Section Monad.
Context {P : Provider}.

Definition ret {A} (a : A) : M P A := fun w => (Ret a, w).

Definition throw {A} (e : JsError) : M P A := fun w => (Throw e, w).

Definition diverge {A} : M P A := fun w => (Diverge, w).

Definition bind {A B} (m : M P A) (k : A -> M P B) : M P B :=
  fun w =>
    match m w with
    | (Ret a, w') => k a w'
    | (Throw e, w') => (Throw e, w')
    | (Diverge, w') => (Diverge, w')
    end.

(** [try { body } catch (error) { handler }]. *)
Definition try_catch {A} (body : M P A) (handler : JsError -> M P A) : M P A :=
  fun w =>
    match body w with
    | (Throw e, w') => handler e w'
    | r => r
    end.

(** A remote call: the request is logged, the provider answers, a failure
    is thrown.  The accounts table is carried along as the operation found
    it: the updates of the token listener, which can run while a call is
    under way, are [on_tokens] and [persist] below, and no operation reads
    the table after its first remote call. *)
Definition call {A} (req : Request)
    (step : Remote P -> (JsError + A) * Remote P) : M P A :=
  fun w =>
    let (r, rem) := step (remote w) in
    let w' := {| db := db w; remote := rem; log := log w ++ [req] |} in
    match r with
    | inl e => (Throw e, w')
    | inr a => (Ret a, w')
    end.

End Monad.

Declare Scope js_scope.
Delimit Scope js_scope with js.
Notation "x <- m ;; k" := (bind m (fun x => k))
  (at level 61, m at next level, right associativity) : js_scope.
Local Open Scope js_scope.

(** ** The service *)

Module GoogleCalendarService.
Section Service.
Context {P : Provider}.

(** The three errors [getCalendarClient] throws. *)
Definition NoLinkedAccount : JsError :=
  mkError "No Google account linked".
Definition MissingAccessToken : JsError :=
  mkError "No access token found. Please sign in again.".
Definition InsufficientScope : JsError :=
  mkError "Calendar permissions not granted. Please sign out and sign in again to grant calendar access.".

(** [db.select().from(accounts).where(eq(accounts.userId, userId)).limit(1)] *)
Definition select_account (uid : string) (tbl : list Account) : list Account :=
  firstn 1 (filter (fun a => userId a =? uid) tbl).

(** The scope test of lines 35-43: [true] when the throw is taken. *)
Definition missing_calendar_scopes (sc : option string) : bool :=
  if Js.truthy sc then
    let hasCalendarReadScope := Js.opt_includes "calendar.readonly" sc in
    let hasCalendarEventsScope := Js.opt_includes "calendar.events" sc in
    negb hasCalendarReadScope && negb hasCalendarEventsScope
  else false.

Definition getCalendarClient (uid : string) : M P Client :=
  fun w =>
    match select_account uid (db w) with
    | [] => throw NoLinkedAccount w
    | account :: _ =>
        match accessToken account with
        | None => throw MissingAccessToken w
        | Some tok =>
            if tok =? "" then throw MissingAccessToken w
            else if missing_calendar_scopes (scope account)
            then throw InsufficientScope w
            else ret {| access_token := tok;
                        refresh_token := refreshToken account;
                        owner := uid |} w
        end
    end.

(** *** The token-rotation listener (lines 57-79) *)

(** The [tokens] event payload. *)
Record Tokens := {
  t_access_token : option string;
  t_refresh_token : option string
}.

(** One [db.update(accounts).set({...}).where(eq(accounts.userId, userId))]:
    the columns named in [set], and the user of the [where]. *)
Record DbUpdate := {
  set_accessToken : option string;
  set_refreshToken : option string;
  set_updatedAt : Z;
  where_userId : string
}.

(** What one run of the listener meets.  The payload is an object of the
    emitter: [at_start] is what it holds when the listener is called, and
    [after_await] what it holds when the awaited first update returns, the
    emitter being free to write to it meanwhile.  [access_accepted] and
    [refresh_accepted] tell whether the store accepts the update of that
    column; a rejected update rejects the listener where it is awaited.
    [time1] and [time2] are what [new Date()] gives when the first and the
    second [set] object is built. *)
Record ListenerRun := {
  at_start : Tokens;
  after_await : Tokens;
  access_accepted : bool;
  refresh_accepted : bool;
  time1 : Z;
  time2 : Z
}.

(** The payload as the second test (line 70) reads it: after the await of
    the first update when there was one, as at the start otherwise. *)
Definition at_second_test (run : ListenerRun) : Tokens :=
  if Js.truthy (t_access_token (at_start run))
  then after_await run
  else at_start run.

(** The listener's updates, in the order they are issued (lines 57-79). *)
Definition on_tokens (uid : string) (run : ListenerRun) : list DbUpdate :=
  let second :=
    if Js.truthy (t_refresh_token (at_second_test run))
    then [ {| set_accessToken := None;
              set_refreshToken := t_refresh_token (at_second_test run);
              set_updatedAt := time2 run;
              where_userId := uid |} ]
    else [] in
  if Js.truthy (t_access_token (at_start run))
  then {| set_accessToken := t_access_token (at_start run);
          set_refreshToken := None;
          set_updatedAt := time1 run;
          where_userId := uid |}
       :: (if access_accepted run then second else [])
  else second.

(** What one update does to one row. *)
Definition update_row (u : DbUpdate) (a : Account) : Account :=
  if userId a =? where_userId u then
    {| userId := userId a;
       accessToken := match set_accessToken u with
                      | Some v => Some v
                      | None => accessToken a
                      end;
       refreshToken := match set_refreshToken u with
                       | Some v => Some v
                       | None => refreshToken a
                       end;
       scope := scope a;
       updatedAt := set_updatedAt u |}
  else a.

Definition run_update (u : DbUpdate) (tbl : list Account) : list Account :=
  map (update_row u) tbl.

(** Which token columns a write names. *)
Definition writes_access (u : DbUpdate) : bool :=
  match set_accessToken u with Some _ => true | None => false end.
Definition writes_refresh (u : DbUpdate) : bool :=
  match set_refreshToken u with Some _ => true | None => false end.

(** *** listCalendars *)

Definition listCalendars_catch (error : JsError) : JsError :=
  mkError ("Failed to fetch calendar list: " ++ Js.template (message error)).

Definition listCalendars (uid : string) : M P (list CalendarListEntry) :=
  try_catch
    (calendar <- getCalendarClient uid ;;
     response <- call CalendarListList (calendarList_list P calendar) ;;
     let calendars := match response with
                      | Some l => l
                      | None => []
                      end in
     ret calendars)
    (fun error => throw (listCalendars_catch error)).

(** *** getEvents *)

(** The messages of the [catch] clause of [getEvents]. *)
Definition msg_AuthExpired : string :=
  "Google Calendar authentication expired. Please sign out and sign in again.".
Definition msg_ApiNotEnabled : string :=
  "Google Calendar API is not enabled in your Google Cloud Console. Please enable it at https://console.cloud.google.com/apis/library/calendar-json.googleapis.com".
Definition msg_InsufficientPermission : string :=
  "Insufficient permissions for Google Calendar. Please sign out and sign in again to grant calendar access.".
Definition msg_AccessDenied (detail : string) : string :=
  "Google Calendar access denied. " ++ detail.
Definition msg_AccessDenied_default : string :=
  "Please ensure Calendar API is enabled in Google Cloud Console and you have granted calendar permissions.".
Definition msg_RateLimited : string :=
  "Google Calendar API rate limit exceeded. Please try again later.".
Definition msg_UpstreamFailure (detail : string) : string :=
  "Failed to fetch calendar events: " ++ detail.

(** [error.code === n || error.status === n] *)
Definition has_status (n : Z) (error : JsError) : bool :=
  Js.strict_eq_num (code error) n || Js.strict_eq_num (status error) n.

(** [error.response?.data?.error?.message || error.message] *)
Definition errorMessage (error : JsError) : option string :=
  Js.or_else (response_message error) (message error).

(** The [catch] clause of [getEvents] (lines 181-218): the error it throws. *)
Definition getEvents_catch (error : JsError) : JsError :=
  if has_status 401 error then mkError msg_AuthExpired
  else if has_status 403 error then
    let errorMessage := errorMessage error in
    if Js.opt_includes "Calendar API has not been used" errorMessage
       || Js.opt_includes "has not been enabled" errorMessage
    then mkError msg_ApiNotEnabled
    else if Js.opt_includes "insufficient" errorMessage
            || Js.opt_includes "scope" errorMessage
    then mkError msg_InsufficientPermission
    else mkError (msg_AccessDenied
                    (Js.template (Js.or_else errorMessage
                                    (Some msg_AccessDenied_default))))
  else if has_status 429 error then mkError msg_RateLimited
  else mkError (msg_UpstreamFailure (Js.template (message error))).

(** [queryParams] of one calendar (lines 136-144) with the page token
    spread in (line 152). *)
Definition queryParams (now : string) (calId : string)
    (timeMin timeMax : option string) (pageToken : option string)
  : EventsListParams :=
  {| q_calendarId := calId;
     q_timeMin := Js.template (Js.or_else timeMin (Some now));
     q_timeMax := timeMax;
     q_maxResults := 250;
     q_singleEvents := true;
     q_orderBy := "startTime";
     q_pageToken := pageToken |}.

(** The [do ... while (pageToken)] loop of one calendar (lines 149-176).
    [mk] is [queryParams] with everything but the page token fixed; one
    unit of fuel is one page request. *)
Fixpoint fetch_pages (fuel : nat) (calendar : Client)
    (mk : option string -> EventsListParams) (calId : string)
    (pageToken : option string) (allItems : list Event)
  : M P (list Event) :=
  match fuel with
  | O => diverge
  | S fuel' =>
      let params := mk pageToken in
      response <- call (EventsList params) (events_list P calendar params) ;;
      let items := match items response with
                   | Some l => l
                   | None => []
                   end in
      let allItems' := allItems ++ map (set_calendarId calId) items in
      let pageToken' := nextPageToken response in
      if Js.truthy pageToken'
      then fetch_pages fuel' calendar mk calId pageToken' allItems'
      else ret allItems'
  end.

(** [new Date().toISOString()] *)
Definition read_now : M P string :=
  fun w => (Ret (now_iso P (remote w)), w).

(** The [for (const calId of calendarIds)] loop (lines 133-177). *)
Fixpoint for_calendars (fuel : nat) (calendar : Client)
    (timeMin timeMax : option string) (calendarIds : list string)
    (allItems : list Event) : M P (list Event) :=
  match calendarIds with
  | [] => ret allItems
  | calId :: rest =>
      now <- read_now ;;
      allItems' <- fetch_pages fuel calendar
                     (queryParams now calId timeMin timeMax) calId
                     None allItems ;;
      for_calendars fuel calendar timeMin timeMax rest allItems'
  end.

(** [if (calendarId)]: an array is always truthy, a string when not empty. *)
Definition sel_truthy (sel : option CalendarSel) : bool :=
  match sel with
  | None => false
  | Some (One s) => negb (s =? "")
  | Some (Many _) => true
  end.

(** Lines 120-128: [Array.isArray(calendarId) ? calendarId : [calendarId]]
    when [calendarId] is truthy, the identifiers of [listCalendars]
    otherwise. *)
Definition select_calendars (uid : string) (sel : option CalendarSel)
  : M P (list string) :=
  if sel_truthy sel then
    ret (match sel with
         | Some (Many l) => l
         | Some (One s) => [s]
         | None => []
         end)
  else
    calendars <- listCalendars uid ;;
    ret (map cal_id calendars).

Definition getEvents (fuel : nat) (uid : string)
    (timeMin timeMax : option string) (sel : option CalendarSel)
  : M P (list Event) :=
  try_catch
    (calendar <- getCalendarClient uid ;;
     calendarIds <- select_calendars uid sel ;;
     for_calendars fuel calendar timeMin timeMax calendarIds [])
    (fun error => throw (getEvents_catch error)).

(** *** createEvent, updateEvent, deleteEvent *)

Definition createEvent (uid : string) (event : EventDraft) : M P Event :=
  calendar <- getCalendarClient uid ;;
  response <- call (EventsInsert "primary" event)
                   (events_insert P calendar "primary" event) ;;
  ret response.

Definition updateEvent (uid : string) (eventId : string)
    (event : PartialEventDraft) : M P Event :=
  calendar <- getCalendarClient uid ;;
  response <- call (EventsUpdate "primary" eventId event)
                   (events_update P calendar "primary" eventId event) ;;
  ret response.

(** The success marker [{ success: true }] is [true]. *)
Definition deleteEvent (uid : string) (eventId : string) : M P bool :=
  calendar <- getCalendarClient uid ;;
  _ <- call (EventsDelete "primary" eventId)
            (events_delete P calendar "primary" eventId) ;;
  ret true.

End Service.
End GoogleCalendarService.

(** ** Vocabulary of the statements *)

Import GoogleCalendarService.

(** The error kinds of the classifier, recognised by the message of the
    error that is thrown. *)
Inductive ErrorKind :=
| AuthExpired
| ApiNotEnabled
| InsufficientPermission
| AccessDenied
| RateLimited
| UpstreamFailure.

Definition has_kind (k : ErrorKind) (e : JsError) : Prop :=
  match k with
  | AuthExpired => message e = Some msg_AuthExpired
  | ApiNotEnabled => message e = Some msg_ApiNotEnabled
  | InsufficientPermission => message e = Some msg_InsufficientPermission
  | AccessDenied => exists detail, message e = Some (msg_AccessDenied detail)
  | RateLimited => message e = Some msg_RateLimited
  | UpstreamFailure => exists detail, message e = Some (msg_UpstreamFailure detail)
  end.

Definition classified (e : JsError) : Prop := exists k, has_kind k e.

(** The two message tests of the 403 branch. *)
Definition says_api_not_enabled (e : JsError) : bool :=
  Js.opt_includes "Calendar API has not been used" (errorMessage e)
  || Js.opt_includes "has not been enabled" (errorMessage e).

Definition says_insufficient (e : JsError) : bool :=
  Js.opt_includes "insufficient" (errorMessage e)
  || Js.opt_includes "scope" (errorMessage e).

(** The record [getCalendarClient] works on: the first row of the user. *)
Definition credential_record (uid : string) (tbl : list Account)
  : option Account :=
  match select_account uid tbl with
  | [] => None
  | account :: _ => Some account
  end.

(** The scope string names at least one of the two capabilities. *)
Definition has_calendar_capability (sc : option string) : bool :=
  Js.opt_includes "calendar.readonly" sc || Js.opt_includes "calendar.events" sc.

Section Serving.
Context {P : Provider}.

Definition world_with (w : World P) (r : Remote P) (l : list Request)
  : World P :=
  {| db := db w; remote := r; log := log w ++ l |}.

(** The events of one page, tagged. *)
Definition page_items (calId : string) (p : EventsData) : list Event :=
  map (set_calendarId calId)
      (match items p with Some l => l | None => [] end).

Definition calendar_events (calId : string) (pages : list EventsData)
  : list Event :=
  flat_map (page_items calId) pages.

(** The page tokens of the requests that fetch [pages]: none for the
    first, then the token of the page before. *)
Definition page_tokens (pages : list EventsData) : list (option string) :=
  match pages with
  | [] => []
  | _ :: _ => None :: map nextPageToken (removelast pages)
  end.

Definition page_requests (mk : option string -> EventsListParams)
    (pages : list EventsData) : list Request :=
  map (fun tok => EventsList (mk tok)) (page_tokens pages).

(** From provider state [r], the query [mk] started at token [tok] is
    answered by exactly [pages]: every page but the last carries a
    continuation token, the last carries none. *)
Fixpoint serves (calendar : Client) (mk : option string -> EventsListParams)
    (tok : option string) (r : Remote P) (pages : list EventsData) : Prop :=
  match pages with
  | [] => False
  | p :: ps =>
      fst (events_list P calendar (mk tok) r) = inr p /\
      match ps with
      | [] => Js.truthy (nextPageToken p) = false
      | _ :: _ =>
          Js.truthy (nextPageToken p) = true /\
          serves calendar mk (nextPageToken p)
                 (snd (events_list P calendar (mk tok) r)) ps
      end
  end.

(** The provider state after those requests. *)
Fixpoint after (calendar : Client) (mk : option string -> EventsListParams)
    (tok : option string) (r : Remote P) (pages : list EventsData)
  : Remote P :=
  match pages with
  | [] => r
  | p :: ps =>
      after calendar mk (nextPageToken p)
            (snd (events_list P calendar (mk tok) r)) ps
  end.

(** From [r], the query is answered by [pages], each carrying a
    continuation token, and the next request fails with [e]. *)
Fixpoint fails_after (calendar : Client)
    (mk : option string -> EventsListParams)
    (tok : option string) (r : Remote P) (pages : list EventsData)
    (e : JsError) : Prop :=
  match pages with
  | [] => fst (events_list P calendar (mk tok) r) = inl e
  | p :: ps =>
      fst (events_list P calendar (mk tok) r) = inr p /\
      Js.truthy (nextPageToken p) = true /\
      fails_after calendar mk (nextPageToken p)
                  (snd (events_list P calendar (mk tok) r)) ps e
  end.

(** The query of calendar [calId] as [getEvents] builds it when the
    provider is in state [r]. *)
Definition query_of (timeMin timeMax : option string) (r : Remote P)
    (calId : string) : option string -> EventsListParams :=
  queryParams (now_iso P r) calId timeMin timeMax.

(** The calendars [calIds], queried one after the other from [r], are
    answered by the page lists [pagess]. *)
Fixpoint serves_all (calendar : Client) (timeMin timeMax : option string)
    (calIds : list string) (r : Remote P) (pagess : list (list EventsData))
  : Prop :=
  match calIds, pagess with
  | [], [] => True
  | calId :: rest, pages :: pagess' =>
      serves calendar (query_of timeMin timeMax r calId) None r pages /\
      serves_all calendar timeMin timeMax rest
                 (after calendar (query_of timeMin timeMax r calId) None r pages)
                 pagess'
  | _, _ => False
  end.

Fixpoint after_all (calendar : Client) (timeMin timeMax : option string)
    (calIds : list string) (r : Remote P) (pagess : list (list EventsData))
  : Remote P :=
  match calIds, pagess with
  | calId :: rest, pages :: pagess' =>
      after_all calendar timeMin timeMax rest
                (after calendar (query_of timeMin timeMax r calId) None r pages)
                pagess'
  | _, _ => r
  end.

(** The requests of that run, calendar by calendar. *)
Fixpoint requests_all (calendar : Client) (timeMin timeMax : option string)
    (calIds : list string) (r : Remote P) (pagess : list (list EventsData))
  : list (list Request) :=
  match calIds, pagess with
  | calId :: rest, pages :: pagess' =>
      page_requests (query_of timeMin timeMax r calId) pages
      :: requests_all calendar timeMin timeMax rest
           (after calendar (query_of timeMin timeMax r calId) None r pages)
           pagess'
  | _, _ => []
  end.

(** The merged result: per-calendar lists, in the order of [calIds]. *)
Fixpoint merged (calIds : list string) (pagess : list (list EventsData))
  : list Event :=
  match calIds, pagess with
  | calId :: rest, pages :: pagess' =>
      calendar_events calId pages ++ merged rest pagess'
  | _, _ => []
  end.

(** Every page list has at most [fuel] pages. *)
Definition within (fuel : nat) (pagess : list (list EventsData)) : Prop :=
  Forall (fun pages => length pages <= fuel) pagess.

(** Calendar [c] was asked for events in the log. *)
Definition queried (l : list Request) (c : string) : Prop :=
  exists params, In (EventsList params) l /\ q_calendarId params = c.

(** [req] asks for a page of calendar [calId] with page size 250 and page
    token [tok]. *)
Definition page_request_of (calId : string) (tok : option string)
    (req : Request) : Prop :=
  exists params,
    req = EventsList params /\
    q_calendarId params = calId /\
    q_maxResults params = 250%Z /\
    q_pageToken params = tok.

(** Calendar by calendar, the requests [reqss] are the page requests of
    the page lists [pagess]: one request per page, with the page tokens
    [page_tokens] gives. *)
Fixpoint paged (calIds : list string) (pagess : list (list EventsData))
    (reqss : list (list Request)) : Prop :=
  match calIds, pagess, reqss with
  | [], [], [] => True
  | calId :: rest, pages :: pagess', reqs :: reqss' =>
      length reqs = length pages /\
      Forall2 (page_request_of calId) (page_tokens pages) reqs /\
      paged rest pagess' reqss'
  | _, _, _ => False
  end.

End Serving.

(** ** Vocabulary of the further properties *)

(** The run of the listener in which the emitter leaves the payload alone
    and the store accepts every update. *)
Definition quiet (tokens : Tokens) (t1 t2 : Z) : ListenerRun :=
  {| at_start := tokens; after_await := tokens;
     access_accepted := true; refresh_accepted := true;
     time1 := t1; time2 := t2 |}.

(** The listener gets as far as its second test: it issued no first update,
    or the store accepted it. *)
Definition reaches_second_test (run : ListenerRun) : bool :=
  if Js.truthy (t_access_token (at_start run)) then access_accepted run
  else true.

(** The listener issues an update of the refresh-token column. *)
Definition refresh_issued (run : ListenerRun) : bool :=
  reaches_second_test run && Js.truthy (t_refresh_token (at_second_test run)).

(** The store has taken an update of that column. *)
Definition access_written (run : ListenerRun) : bool :=
  Js.truthy (t_access_token (at_start run)) && access_accepted run.

Definition refresh_written (run : ListenerRun) : bool :=
  refresh_issued run && refresh_accepted run.

(** Whether the store accepts an update of the listener. *)
Definition accepted (run : ListenerRun) (u : DbUpdate) : bool :=
  if writes_access u then access_accepted run else refresh_accepted run.

(** The credential table once the listener has run: its updates applied in
    the order they were issued, those the store accepted. *)
Definition persist (uid : string) (run : ListenerRun) (tbl : list Account)
  : list Account :=
  fold_left (fun t u => if accepted run u then run_update u t else t)
            (on_tokens uid run) tbl.

(** One row after the listener has run: the tokens written over the old
    ones, the time stamp that of the last update taken. *)
Definition rotated_row (uid : string) (run : ListenerRun) (a : Account)
  : Account :=
  if userId a =? uid then
    {| userId := userId a;
       accessToken := if access_written run
                      then t_access_token (at_start run) else accessToken a;
       refreshToken := if refresh_written run
                       then t_refresh_token (at_second_test run)
                       else refreshToken a;
       scope := scope a;
       updatedAt := if refresh_written run then time2 run
                    else if access_written run then time1 run
                    else updatedAt a |}
  else a.

(** The error carries at most one status: its [code] and [status] do not
    name two different ones. *)
Definition one_status (e : JsError) : Prop :=
  forall n m, has_status n e = true -> has_status m e = true -> n = m.

(** A world whose credential table has been replaced. *)
Definition with_db {P : Provider} (w : World P) (tbl : list Account)
  : World P :=
  {| db := tbl; remote := remote w; log := log w |}.

(** [req] is an event listing as [getEvents] asks for it: page size 250,
    recurring events expanded, ordered by start time, the caller's upper
    bound, and as lower bound the caller's when one is given and a reading
    of the clock otherwise. *)
Definition listing_query {P : Provider} (timeMin timeMax : option string)
    (req : Request) : Prop :=
  exists params,
    req = EventsList params /\
    q_maxResults params = 250%Z /\
    q_singleEvents params = true /\
    q_orderBy params = "startTime" /\
    q_timeMax params = timeMax /\
    (if Js.truthy timeMin then Some (q_timeMin params) = timeMin
     else exists r : Remote P, q_timeMin params = now_iso P r).

(** A provider whose listings and clock do not depend on its state: the
    same request gets the same answer whenever it is asked. *)
Definition stateless (P : Provider) : Prop :=
  (forall r r' : Remote P, now_iso P r = now_iso P r') /\
  (forall c (r r' : Remote P),
      fst (calendarList_list P c r) = fst (calendarList_list P c r')) /\
  (forall c q (r r' : Remote P),
      fst (events_list P c q r) = fst (events_list P c q r')).

(** A method that leaves the credential table alone and whose outcome
    depends on the world through that table only. *)
Definition stable {P : Provider} {A} (m : M P A) : Prop :=
  forall w,
    db (snd (m w)) = db w /\
    forall w', db w' = db w -> fst (m w') = fst (m w).

(** [allItems] put in front of what a loop returns. *)
Definition prepend (allItems : list Event) (r : Res (list Event))
  : Res (list Event) :=
  match r with
  | Ret evs => Ret (allItems ++ evs)
  | Throw e => Throw e
  | Diverge => Diverge
  end.

(** The outcome of a remote call as a method outcome. *)
Definition outcome_of {A} (r : JsError + A) : Res A :=
  match r with
  | inl e => Throw e
  | inr a => Ret a
  end.

(** ** Concrete providers and tables, for running the methods *)

Module Demo.

Definition ev (name : string) : Event :=
  {| id := name; summary := Some name; description := None;
     start := None; end_ := None; attendees := []; ev_status := Some "confirmed";
     calendarId := None |}.

Definition cal (name : string) (primary : bool) : CalendarListEntry :=
  {| cal_id := name; cal_summary := Some name; cal_primary := primary;
     cal_accessRole := Some "owner" |}.

(** The provider's 401 answer. *)
Definition e401 : JsError :=
  {| message := Some "Invalid Credentials"; code := Js.Number 401;
     status := Js.Number 401; response_message := Some "Invalid Credentials" |}.

(** A 403 whose message has a phrase of each of the two 403 tests. *)
Definition e403_both : JsError :=
  {| message := Some "Calendar API has not been enabled for this project; the token has insufficient scope";
     code := Js.Number 403; status := Js.Number 403;
     response_message := None |}.

Definition e403_scope : JsError :=
  {| message := Some "Request had insufficient authentication scopes.";
     code := Js.Number 403; status := Js.Number 403;
     response_message := Some "Request had insufficient authentication scopes." |}.

Definition e403_plain : JsError :=
  {| message := Some "Forbidden"; code := Js.Number 403;
     status := Js.Number 403; response_message := None |}.

Definition e429 : JsError :=
  {| message := Some "Too Many Requests"; code := Js.Number 429;
     status := Js.Number 429; response_message := None |}.

Definition e500 : JsError :=
  {| message := Some "Backend Error"; code := Js.Number 500;
     status := Js.Number 500; response_message := Some "Backend Error" |}.

(** Calendar A has two pages ([A1], [A2] then [A3]), calendar B one page
    ([B1], [B2]), any other calendar answers 500.  The state counts the
    requests served. *)
Definition list_events (params : EventsListParams) : JsError + EventsData :=
  if q_calendarId params =? "A" then
    match q_pageToken params with
    | None => inr {| items := Some [ev "A1"; ev "A2"]; nextPageToken := Some "t1" |}
    | Some _ => inr {| items := Some [ev "A3"]; nextPageToken := None |}
    end
  else if q_calendarId params =? "B" then
    inr {| items := Some [ev "B1"; ev "B2"]; nextPageToken := None |}
  else inl e500.

Definition now : string := "2024-05-01T00:00:00.000Z".

Definition provider : Provider :=
  {| Remote := nat;
     now_iso := fun _ => now;
     calendarList_list := fun _ n => (inr (Some [cal "A" true; cal "B" false]), S n);
     events_list := fun _ params n => (list_events params, S n);
     events_insert := fun _ _ _ n => (inl e401, S n);
     events_update := fun _ _ _ _ n => (inl e401, S n);
     events_delete := fun _ _ _ n => (inl e401, S n) |}.

(** A provider whose every answer is 401. *)
Definition expired : Provider :=
  {| Remote := nat;
     now_iso := fun _ => now;
     calendarList_list := fun _ n => (inl e401, S n);
     events_list := fun _ _ n => (inl e401, S n);
     events_insert := fun _ _ _ n => (inl e401, S n);
     events_update := fun _ _ _ _ n => (inl e401, S n);
     events_delete := fun _ _ _ n => (inl e401, S n) |}.

Definition account (uid : string) (tok sc : option string) : Account :=
  {| userId := uid; accessToken := tok; refreshToken := Some "r0";
     scope := sc; updatedAt := 0 |}.

Definition calendar_scope : string :=
  "openid email https://www.googleapis.com/auth/calendar.events".

(** ann is linked with a calendar scope; bob has neither token nor
    calendar scope; cat has a token and an empty scope string; dan has a
    token and no calendar scope; eve is not in the table. *)
Definition table : list Account :=
  [ account "ann" (Some "a0") (Some calendar_scope);
    account "bob" None (Some "openid email");
    account "cat" (Some "c0") (Some "");
    account "dan" (Some "d0") (Some "openid email") ].

Definition world (P : Provider) (r : Remote P) : World P :=
  {| db := table; remote := r; log := [] |}.

Definition ann : Client :=
  {| access_token := "a0"; refresh_token := Some "r0"; owner := "ann" |}.

Definition pagesA : list EventsData :=
  [ {| items := Some [ev "A1"; ev "A2"]; nextPageToken := Some "t1" |};
    {| items := Some [ev "A3"]; nextPageToken := None |} ].

Definition pagesB : list EventsData :=
  [ {| items := Some [ev "B1"; ev "B2"]; nextPageToken := None |} ].

Definition draft : EventDraft :=
  {| d_summary := "Lunch"; d_description := None;
     d_start := {| dateTime := "2024-05-02T12:00:00Z"; timeZone := None |};
     d_end := {| dateTime := "2024-05-02T13:00:00Z"; timeZone := None |};
     d_attendees := None |}.

(** A provider whose every page of events carries a continuation token. *)
Definition endless : Provider :=
  {| Remote := nat;
     now_iso := fun _ => now;
     calendarList_list := fun _ n => (inr (Some [cal "A" true]), S n);
     events_list := fun _ _ n =>
       (inr {| items := Some [ev "E"]; nextPageToken := Some "more" |}, S n);
     events_insert := fun _ _ _ n => (inl e401, S n);
     events_update := fun _ _ _ _ n => (inl e401, S n);
     events_delete := fun _ _ _ n => (inr tt, S n) |}.

(** A rotation that reports both tokens. *)
Definition rotated : Tokens :=
  {| t_access_token := Some "a1"; t_refresh_token := Some "r1" |}.

(** A rotation that reports a new access token only. *)
Definition access_only : Tokens :=
  {| t_access_token := Some "a1"; t_refresh_token := None |}.

(** The event reports a new access token only; while the first update is
    awaited the emitter puts the refresh token it already holds into the
    payload. *)
Definition filled_in : ListenerRun :=
  {| at_start := access_only;
     after_await := {| t_access_token := Some "a1";
                       t_refresh_token := Some "r0" |};
     access_accepted := true; refresh_accepted := true;
     time1 := 10; time2 := 11 |}.

(** The event reports both tokens and the store rejects the first update. *)
Definition rejected : ListenerRun :=
  {| at_start := rotated; after_await := rotated;
     access_accepted := false; refresh_accepted := true;
     time1 := 10; time2 := 11 |}.

End Demo.

(** ** A provider that stores an event *)

Module Store.

(** The contract of the provider's [events.update] (Calendar API v3): the
    request body replaces the event resource as a whole, so a field the
    body leaves out is cleared; the identifier and the fields the provider
    owns stay. *)
Definition replaced (stored : Event) (body : PartialEventDraft) : Event :=
  {| id := id stored;
     summary := p_summary body;
     description := p_description body;
     start := p_start body;
     end_ := p_end body;
     attendees := match p_attendees body with Some l => l | None => [] end;
     ev_status := ev_status stored;
     calendarId := calendarId stored |}.

(** Modelled from the spec: the partial update that 4.4 ascribes to the
    provider (the contract of the provider's other method, [events.patch],
    which the service does not call): a field the body supplies is changed,
    a field it leaves out is left as stored. *)
Definition patched (stored : Event) (body : PartialEventDraft) : Event :=
  {| id := id stored;
     summary := match p_summary body with
                | Some v => Some v
                | None => summary stored
                end;
     description := match p_description body with
                    | Some v => Some v
                    | None => description stored
                    end;
     start := match p_start body with Some v => Some v | None => start stored end;
     end_ := match p_end body with Some v => Some v | None => end_ stored end;
     attendees := match p_attendees body with
                  | Some l => l
                  | None => attendees stored
                  end;
     ev_status := ev_status stored;
     calendarId := calendarId stored |}.

Definition e404 : JsError :=
  {| message := Some "Not Found"; code := Js.Number 404;
     status := Js.Number 404; response_message := Some "Not Found" |}.

(** A provider whose state is one stored event of the primary calendar and
    whose [events.update] applies [update] to it. *)
Definition provider (update : Event -> PartialEventDraft -> Event)
  : Provider :=
  {| Remote := Event;
     now_iso := fun _ => Demo.now;
     calendarList_list := fun _ stored =>
       (inr (Some [Demo.cal "primary" true]), stored);
     events_list := fun _ _ stored =>
       (inr {| items := Some [stored]; nextPageToken := None |}, stored);
     events_insert := fun _ _ _ stored => (inl e404, stored);
     events_update := fun _ calId eventId body stored =>
       if (calId =? "primary") && (eventId =? id stored)
       then (inr (update stored body), update stored body)
       else (inl e404, stored);
     events_delete := fun _ _ _ stored => (inl e404, stored) |}.

(** Every field the draft leaves out is on [after] as it was on [before]. *)
Definition omitted_untouched (body : PartialEventDraft) (before after : Event)
  : Prop :=
  (p_summary body = None -> summary after = summary before) /\
  (p_description body = None -> description after = description before) /\
  (p_start body = None -> start after = start before) /\
  (p_end body = None -> end_ after = end_ before) /\
  (p_attendees body = None -> attendees after = attendees before).

(** The stored event: a meeting with a description and two attendees. *)
Definition standup : Event :=
  {| id := "ev1"; summary := Some "Standup";
     description := Some "Daily sync";
     start := Some {| dateTime := "2024-05-02T09:00:00Z"; timeZone := None |};
     end_ := Some {| dateTime := "2024-05-02T09:15:00Z"; timeZone := None |};
     attendees := ["bo@example.com"; "cy@example.com"];
     ev_status := Some "confirmed"; calendarId := None |}.

(** A partial draft: a new title and new times, nothing else. *)
Definition moved : PartialEventDraft :=
  {| p_summary := Some "Standup (moved)";
     p_description := None;
     p_start := Some {| dateTime := "2024-05-02T10:00:00Z"; timeZone := None |};
     p_end := Some {| dateTime := "2024-05-02T10:15:00Z"; timeZone := None |};
     p_attendees := None |}.

Definition world (update : Event -> PartialEventDraft -> Event)
  : World (provider update) :=
  Build_World (provider update) Demo.table standup [].

End Store.

(** ** Running the monad *)

Section Runs.
Context {P : Provider}.

Lemma bind_ret {A B} (m : M P A) (k : A -> M P B) w a w' :
  m w = (Ret a, w') -> bind m k w = k a w'.
Proof. intros H. unfold bind. now rewrite H. Qed.

Lemma bind_throw {A B} (m : M P A) (k : A -> M P B) w e w' :
  m w = (Throw e, w') -> bind m k w = (Throw e, w').
Proof. intros H. unfold bind. now rewrite H. Qed.

Lemma bind_diverge {A B} (m : M P A) (k : A -> M P B) w w' :
  m w = (Diverge, w') -> bind m k w = (Diverge, w').
Proof. intros H. unfold bind. now rewrite H. Qed.

(** A bind that returns went through a returning first step. *)
Lemma bind_inv_ret {A B} (m : M P A) (k : A -> M P B) w b w' :
  bind m k w = (Ret b, w') ->
  exists a w1, m w = (Ret a, w1) /\ k a w1 = (Ret b, w').
Proof.
  unfold bind. destruct (m w) as [[a | e |] w1]; intros H; try discriminate.
  now exists a, w1.
Qed.

Lemma call_ok {A} req (step : Remote P -> (JsError + A) * Remote P) w a :
  fst (step (remote w)) = inr a ->
  call req step w = (Ret a, world_with w (snd (step (remote w))) [req]).
Proof.
  unfold call, world_with. destruct (step (remote w)) as [r rem]. simpl.
  now intros ->.
Qed.

Lemma call_fail {A} req (step : Remote P -> (JsError + A) * Remote P) w e :
  fst (step (remote w)) = inl e ->
  call req step w = (Throw e, world_with w (snd (step (remote w))) [req]).
Proof.
  unfold call, world_with. destruct (step (remote w)) as [r rem]. simpl.
  now intros ->.
Qed.

Lemma world_with_nil (w : World P) : world_with w (remote w) [] = w.
Proof. destruct w. unfold world_with. simpl. now rewrite app_nil_r. Qed.

Lemma world_with_with (w : World P) r l r' l' :
  world_with (world_with w r l) r' l' = world_with w r' (l ++ l').
Proof. unfold world_with. simpl. now rewrite app_assoc. Qed.

(** Resolving a credential reads the table and nothing else. *)
Lemma getCalendarClient_world uid (w : World P) r w' :
  getCalendarClient uid w = (r, w') -> w' = w.
Proof.
  unfold getCalendarClient, throw, ret.
  destruct (select_account uid (db w)) as [| a l]; [now intros [= _ <-] |].
  destruct (accessToken a) as [tok |]; [| now intros [= _ <-]].
  destruct (tok =? ""); [now intros [= _ <-] |].
  destruct (missing_calendar_scopes (scope a)); now intros [= _ <-].
Qed.

End Runs.

(** ** The pagination loop *)

Section Pagination.
Context {P : Provider}.

Lemma fetch_pages_step fuel calendar mk calId tok allItems (w : World P) p :
  fst (events_list P calendar (mk tok) (remote w)) = inr p ->
  fetch_pages (S fuel) calendar mk calId tok allItems w =
  (if Js.truthy (nextPageToken p)
   then fetch_pages fuel calendar mk calId (nextPageToken p)
          (allItems ++ page_items calId p)
   else ret (allItems ++ page_items calId p))
    (world_with w (snd (events_list P calendar (mk tok) (remote w)))
                [EventsList (mk tok)]).
Proof.
  intros H. cbn [fetch_pages].
  erewrite bind_ret by (apply call_ok; exact H). reflexivity.
Qed.

Lemma fetch_pages_step_fail fuel calendar mk calId tok allItems (w : World P) e :
  fst (events_list P calendar (mk tok) (remote w)) = inl e ->
  fetch_pages (S fuel) calendar mk calId tok allItems w =
  (Throw e, world_with w (snd (events_list P calendar (mk tok) (remote w)))
                       [EventsList (mk tok)]).
Proof.
  intros H. cbn [fetch_pages].
  erewrite bind_throw by (apply call_fail; exact H). reflexivity.
Qed.

(** The loop started at any token: what it returns, the state it leaves
    and the requests it logs. *)
Lemma fetch_pages_from pages :
  forall fuel calendar mk calId tok allItems (w : World P),
    serves calendar mk tok (remote w) pages ->
    length pages <= fuel ->
    fetch_pages fuel calendar mk calId tok allItems w =
    (Ret (allItems ++ calendar_events calId pages),
     world_with w (after calendar mk tok (remote w) pages)
       (map (fun t => EventsList (mk t))
            (tok :: map nextPageToken (removelast pages)))).
Proof.
  induction pages as [| p ps IH]; intros fuel calendar mk calId tok allItems w Hs Hf.
  - destruct Hs.
  - destruct fuel as [| fuel]; [simpl in Hf; lia |].
    destruct Hs as [Hp Hrest].
    rewrite (fetch_pages_step _ _ _ _ _ _ _ _ Hp).
    destruct ps as [| q qs].
    + rewrite Hrest. unfold ret, calendar_events. simpl.
      now rewrite app_nil_r.
    + destruct Hrest as [Ht Hs']. rewrite Ht.
      rewrite IH; [| exact Hs' | simpl in *; lia].
      rewrite world_with_with.
      change (removelast (p :: q :: qs)) with (p :: removelast (q :: qs)).
      unfold calendar_events. cbn [flat_map map after app].
      now rewrite <- !app_assoc.
Qed.

Lemma page_tokens_length pages : length (page_tokens pages) = length pages.
Proof.
  destruct pages as [| p ps]; [reflexivity |].
  unfold page_tokens. cbn [length]. rewrite length_map. f_equal.
  revert p. induction ps as [| q qs IH]; intros p; [reflexivity |].
  change (removelast (p :: q :: qs)) with (p :: removelast (q :: qs)).
  cbn [length]. now rewrite IH.
Qed.

Lemma page_requests_length mk pages :
  length (page_requests mk pages) = length pages.
Proof. unfold page_requests. now rewrite length_map, page_tokens_length. Qed.

Lemma fetch_pages_serves pages fuel calendar mk calId allItems (w : World P) :
  serves calendar mk None (remote w) pages ->
  length pages <= fuel ->
  fetch_pages fuel calendar mk calId None allItems w =
  (Ret (allItems ++ calendar_events calId pages),
   world_with w (after calendar mk None (remote w) pages)
              (page_requests mk pages)).
Proof.
  intros Hs Hf. rewrite (fetch_pages_from pages) by assumption.
  destruct pages; [destruct Hs | reflexivity].
Qed.

(** A failing page request ends the loop by a throw of that failure. *)
Lemma fetch_pages_fails pages :
  forall fuel calendar mk calId tok allItems (w : World P) e,
    fails_after calendar mk tok (remote w) pages e ->
    length pages < fuel ->
    exists w', fetch_pages fuel calendar mk calId tok allItems w = (Throw e, w').
Proof.
  induction pages as [| p ps IH]; intros fuel calendar mk calId tok allItems w e Hs Hf;
    (destruct fuel as [| fuel]; [simpl in Hf; lia |]).
  - eexists. apply fetch_pages_step_fail. exact Hs.
  - destruct Hs as (Hp & Ht & Hs').
    rewrite (fetch_pages_step _ _ _ _ _ _ _ _ Hp), Ht.
    apply IH; [exact Hs' | simpl in Hf; lia].
Qed.

End Pagination.

(** ** The loop over the selected calendars *)

Section Aggregation.
Context {P : Provider}.

Lemma for_calendars_cons fuel calendar timeMin timeMax calId rest allItems
      (w : World P) :
  for_calendars fuel calendar timeMin timeMax (calId :: rest) allItems w =
  bind (fetch_pages fuel calendar (query_of timeMin timeMax (remote w) calId)
                    calId None allItems)
       (for_calendars fuel calendar timeMin timeMax rest) w.
Proof. reflexivity. Qed.

Lemma for_calendars_serves calIds :
  forall pagess fuel calendar timeMin timeMax allItems (w : World P),
    serves_all calendar timeMin timeMax calIds (remote w) pagess ->
    within fuel pagess ->
    for_calendars fuel calendar timeMin timeMax calIds allItems w =
    (Ret (allItems ++ merged calIds pagess),
     world_with w
       (after_all calendar timeMin timeMax calIds (remote w) pagess)
       (concat (requests_all calendar timeMin timeMax calIds (remote w) pagess))).
Proof.
  induction calIds as [| c cs IH];
    intros [| pages pagess] fuel calendar timeMin timeMax allItems w Hs Hf;
    try (now destruct Hs).
  - simpl. unfold ret. now rewrite app_nil_r, world_with_nil.
  - destruct Hs as [Hs Hrest].
    inversion Hf as [| ? ? Hlen Hf']; subst.
    rewrite for_calendars_cons.
    erewrite bind_ret by (apply fetch_pages_serves; eassumption).
    rewrite IH with (pagess := pagess); [| exact Hrest | exact Hf'].
    rewrite world_with_with. simpl. now rewrite app_assoc.
Qed.

(** The first failing calendar ends the loop by a throw, whatever was
    collected before it and whatever comes after it. *)
Lemma for_calendars_fails before :
  forall pagess c rest pages e fuel calendar timeMin timeMax allItems (w : World P),
    serves_all calendar timeMin timeMax before (remote w) pagess ->
    within fuel pagess ->
    fails_after calendar
      (query_of timeMin timeMax
         (after_all calendar timeMin timeMax before (remote w) pagess) c)
      None (after_all calendar timeMin timeMax before (remote w) pagess)
      pages e ->
    length pages < fuel ->
    exists w',
      for_calendars fuel calendar timeMin timeMax (before ++ c :: rest)
                    allItems w = (Throw e, w').
Proof.
  induction before as [| b bs IH];
    intros [| pgs pagess] c rest pages e fuel calendar timeMin timeMax allItems w
           Hs Hf Hfail Hlen;
    try (now destruct Hs).
  - simpl app. rewrite for_calendars_cons. simpl in Hfail.
    destruct (fetch_pages_fails pages fuel calendar _ c None allItems w e Hfail Hlen)
      as [w' Hw'].
    exists w'. now apply bind_throw.
  - destruct Hs as [Hs Hrest].
    inversion Hf as [| ? ? Hl Hf']; subst.
    simpl app. rewrite for_calendars_cons.
    erewrite bind_ret by (apply fetch_pages_serves; eassumption).
    apply IH with (pagess := pagess) (pages := pages); try assumption.
Qed.

(** What the inner loop returns is what it was given followed by events
    tagged with its calendar, and it asked for that calendar. *)
Lemma fetch_pages_tagged fuel :
  forall calendar mk calId tok allItems (w : World P) evs w',
    (forall t, q_calendarId (mk t) = calId) ->
    fetch_pages fuel calendar mk calId tok allItems w = (Ret evs, w') ->
    exists new l,
      evs = allItems ++ new /\ log w' = log w ++ l /\
      Forall (fun e => calendarId e = Some calId) new /\
      queried l calId.
Proof.
  induction fuel as [| fuel IH];
    intros calendar mk calId tok allItems w evs w' Hmk H; [discriminate |].
  destruct (fst (events_list P calendar (mk tok) (remote w))) as [e | p] eqn:Hp.
  - rewrite (fetch_pages_step_fail _ _ _ _ _ _ _ _ Hp) in H. discriminate.
  - rewrite (fetch_pages_step _ _ _ _ _ _ _ _ Hp) in H.
    assert (Htag : Forall (fun e => calendarId e = Some calId) (page_items calId p)).
    { unfold page_items. apply Forall_forall. intros e He.
      apply in_map_iff in He. destruct He as (x & <- & _). reflexivity. }
    assert (Hq : queried [EventsList (mk tok)] calId).
    { exists (mk tok). split; [now left | apply Hmk]. }
    destruct (Js.truthy (nextPageToken p)).
    + apply IH in H; [| exact Hmk].
      destruct H as (new & l & -> & Hl & Hnew & _).
      exists (page_items calId p ++ new), ([EventsList (mk tok)] ++ l).
      repeat split.
      * now rewrite app_assoc.
      * rewrite Hl. simpl. now rewrite <- app_assoc.
      * apply Forall_app. now split.
      * destruct Hq as (q & Hin & Hc). exists q. split; [| exact Hc].
        apply in_or_app. now left.
    + injection H as <- <-.
      exists (page_items calId p), [EventsList (mk tok)]. now repeat split.
Qed.

Lemma queried_app_l l l' c : queried l c -> queried (l ++ l') c.
Proof.
  intros (q & Hin & Hc). exists q. split; [| exact Hc].
  apply in_or_app. now left.
Qed.

Lemma queried_app_r l l' c : queried l' c -> queried (l ++ l') c.
Proof.
  intros (q & Hin & Hc). exists q. split; [| exact Hc].
  apply in_or_app. now right.
Qed.

Lemma for_calendars_tagged calIds :
  forall fuel calendar timeMin timeMax allItems (w : World P) evs w',
    for_calendars fuel calendar timeMin timeMax calIds allItems w = (Ret evs, w') ->
    exists new l,
      evs = allItems ++ new /\ log w' = log w ++ l /\
      Forall (fun e => exists c, calendarId e = Some c /\ In c calIds /\
                                 queried l c) new.
Proof.
  induction calIds as [| c cs IH];
    intros fuel calendar timeMin timeMax allItems w evs w' H.
  - injection H as <- <-. exists [], []. now rewrite !app_nil_r.
  - rewrite for_calendars_cons in H.
    apply bind_inv_ret in H. destruct H as (mid & w1 & H1 & H2).
    apply fetch_pages_tagged in H1; [| reflexivity].
    destruct H1 as (new1 & l1 & -> & Hl1 & Hnew1 & Hq1).
    apply IH in H2. destruct H2 as (new2 & l2 & -> & Hl2 & Hnew2).
    exists (new1 ++ new2), (l1 ++ l2). repeat split.
    + now rewrite app_assoc.
    + rewrite Hl2, Hl1. now rewrite app_assoc.
    + apply Forall_app. split.
      * eapply Forall_impl; [| exact Hnew1]. intros e He.
        exists c. repeat split; [exact He | now left | now apply queried_app_l].
      * eapply Forall_impl; [| exact Hnew2]. intros e (c' & Hc' & Hin & Hq).
        exists c'. repeat split; [exact Hc' | now right | now apply queried_app_r].
Qed.

End Aggregation.

(** ** Credential resolution *)

Section Resolution.
Context {P : Provider}.

Lemma truthy_false_cases (o : option string) :
  Js.truthy o = false -> o = None \/ o = Some "".
Proof.
  destruct o as [s |]; [| now left]. simpl.
  destruct (String.eqb_spec s ""); [subst; now right | discriminate].
Qed.

Lemma truthy_true_cases (o : option string) :
  Js.truthy o = true -> exists s, o = Some s /\ (s =? "") = false.
Proof.
  destruct o as [s |]; [| discriminate]. simpl.
  destruct (s =? "") eqn:E; [discriminate |]. now exists s.
Qed.

Lemma missing_calendar_scopes_spec (sc : option string) :
  missing_calendar_scopes sc = Js.truthy sc && negb (has_calendar_capability sc).
Proof.
  unfold missing_calendar_scopes, has_calendar_capability.
  destruct (Js.truthy sc); [| reflexivity]. simpl.
  now rewrite negb_orb.
Qed.

(** C7, as amended.  Credential resolution throws [NoLinkedAccount] for a
    user with no stored record; throws [MissingAccessToken] for a record
    whose access token is absent or empty; throws [InsufficientScope] for
    a record that has an access token and whose scope string is non-empty
    and names neither [calendar.readonly] nor [calendar.events]; and
    returns a client bound to the record's token pair when the access
    token is there and the scope string names at least one of the two.
    None of these touches the world. *)
Theorem getCalendarClient_resolution (uid : string) (w : World P) :
  (credential_record uid (db w) = None ->
   getCalendarClient uid w = (Throw NoLinkedAccount, w)) /\
  (forall a, credential_record uid (db w) = Some a ->
             Js.truthy (accessToken a) = false ->
             getCalendarClient uid w = (Throw MissingAccessToken, w)) /\
  (forall a, credential_record uid (db w) = Some a ->
             Js.truthy (accessToken a) = true ->
             Js.truthy (scope a) = true ->
             has_calendar_capability (scope a) = false ->
             getCalendarClient uid w = (Throw InsufficientScope, w)) /\
  (forall a, credential_record uid (db w) = Some a ->
             Js.truthy (accessToken a) = true ->
             has_calendar_capability (scope a) = true ->
             getCalendarClient uid w =
             (Ret {| access_token := Js.template (accessToken a);
                     refresh_token := refreshToken a;
                     owner := uid |}, w)).
Proof.
  unfold credential_record, getCalendarClient, throw, ret.
  destruct (select_account uid (db w)) as [| acc l].
  - split; [reflexivity |]. repeat split; intros a [=].
  - split; [intros [=] |].
    split; [| split]; intros a [= <-].
    + intros Ht. destruct (truthy_false_cases _ Ht) as [-> | ->]; reflexivity.
    + intros Ht Hs Hc.
      destruct (truthy_true_cases _ Ht) as (tok & -> & ->).
      now rewrite missing_calendar_scopes_spec, Hs, Hc.
    + intros Ht Hc.
      destruct (truthy_true_cases _ Ht) as (tok & -> & ->).
      rewrite missing_calendar_scopes_spec, Hc.
      now rewrite andb_false_r.
Qed.

End Resolution.

(** The four cases of C7 on the demo table: eve, bob without a token, dan
    without a calendar scope, ann. *)
Lemma getCalendarClient_resolution_witness :
  getCalendarClient "eve" (Demo.world Demo.provider 0)
  = (Throw NoLinkedAccount, Demo.world Demo.provider 0) /\
  getCalendarClient "bob" (Demo.world Demo.provider 0)
  = (Throw MissingAccessToken, Demo.world Demo.provider 0) /\
  getCalendarClient "dan" (Demo.world Demo.provider 0)
  = (Throw InsufficientScope, Demo.world Demo.provider 0) /\
  getCalendarClient "ann" (Demo.world Demo.provider 0)
  = (Ret Demo.ann, Demo.world Demo.provider 0).
Proof.
  split; [| split; [| split]].
  - apply (proj1 (getCalendarClient_resolution "eve" (Demo.world Demo.provider 0))).
    reflexivity.
  - apply (proj1 (proj2 (getCalendarClient_resolution "bob" (Demo.world Demo.provider 0)))
             (Demo.account "bob" None (Some "openid email"))); reflexivity.
  - apply (proj1 (proj2 (proj2 (getCalendarClient_resolution "dan" (Demo.world Demo.provider 0))))
             (Demo.account "dan" (Some "d0") (Some "openid email"))); reflexivity.
  - apply (proj2 (proj2 (proj2 (getCalendarClient_resolution "ann" (Demo.world Demo.provider 0))))
             (Demo.account "ann" (Some "a0") (Some Demo.calendar_scope))); reflexivity.
Defined.

(** C7 as stated fails.  bob's record has a scope string that names neither
    capability, yet resolution throws [MissingAccessToken], the token test
    coming first; cat's record has a scope string, the empty one, that names
    neither capability, and resolution succeeds, the scope test being
    skipped for an empty string. *)
Lemma getCalendarClient_scope_clause_counterexample :
  (credential_record "bob" Demo.table
   = Some (Demo.account "bob" None (Some "openid email")) /\
   has_calendar_capability (Some "openid email") = false /\
   fst (getCalendarClient "bob" (Demo.world Demo.provider 0))
   = Throw MissingAccessToken /\
   MissingAccessToken <> InsufficientScope) /\
  (credential_record "cat" Demo.table
   = Some (Demo.account "cat" (Some "c0") (Some "")) /\
   has_calendar_capability (Some "") = false /\
   fst (getCalendarClient "cat" (Demo.world Demo.provider 0))
   = Ret {| access_token := "c0"; refresh_token := Some "r0"; owner := "cat" |}).
Proof.
  repeat split; try reflexivity. discriminate.
Qed.


(** ** The token-rotation listener *)

Lemma update_row_frame (u : DbUpdate) (a : Account) :
  userId (update_row u a) = userId a /\
  scope (update_row u a) = scope a /\
  (userId a <> where_userId u -> update_row u a = a) /\
  (set_accessToken u = None -> accessToken (update_row u a) = accessToken a) /\
  (set_refreshToken u = None -> refreshToken (update_row u a) = refreshToken a).
Proof.
  unfold update_row.
  destruct (String.eqb_spec (userId a) (where_userId u)) as [E | E]; simpl.
  - repeat split; try reflexivity.
    + intros H. now elim H.
    + now intros ->.
    + now intros ->.
  - now repeat split.
Qed.

Lemma on_tokens_row_frame (uid : string) (u : DbUpdate) :
  where_userId u = uid ->
  forall a : Account,
    userId (update_row u a) = userId a /\
    scope (update_row u a) = scope a /\
    updatedAt (update_row u a)
    = (if userId a =? uid then set_updatedAt u else updatedAt a) /\
    (userId a <> uid -> update_row u a = a) /\
    (writes_access u = false ->
     accessToken (update_row u a) = accessToken a) /\
    (writes_refresh u = false ->
     refreshToken (update_row u a) = refreshToken a).
Proof.
  intros Hu a.
  destruct (update_row_frame u a) as (H1 & H2 & H3 & H4 & H5).
  rewrite Hu in H3.
  repeat split; try assumption.
  - unfold update_row. rewrite Hu. now destruct (userId a =? uid).
  - unfold writes_access. destruct (set_accessToken u); [discriminate | auto].
  - unfold writes_refresh. destruct (set_refreshToken u); [discriminate | auto].
Qed.

(** C8, as amended.  In one run the listener issues at most one update
    naming the access-token column and at most one naming the refresh-token
    column.  It issues the first exactly when the event reports an access
    token (a non-empty one).  It issues the second exactly when it gets as
    far as its second test (there was no first update, or the store took
    it) and the payload then carries a refresh token: the payload is read
    after the first update has been awaited, by when the emitter may have
    written to it.  Each update is for the listener's user, names one token
    column only and sets [updatedAt] to the time read when it is built;
    applied to the table it leaves the other token column, the scope, the
    user id and every row of other users as they were. *)
Theorem on_tokens_writes (uid : string) (run : ListenerRun) :
  length (filter writes_access (on_tokens uid run))
  = (if Js.truthy (t_access_token (at_start run)) then 1 else 0) /\
  length (filter writes_refresh (on_tokens uid run))
  = (if refresh_issued run then 1 else 0) /\
  Forall (fun u =>
            where_userId u = uid /\
            ((set_accessToken u = t_access_token (at_start run) /\
              writes_access u = true /\
              set_refreshToken u = None /\ set_updatedAt u = time1 run)
             \/
             (set_refreshToken u = t_refresh_token (at_second_test run) /\
              writes_refresh u = true /\
              set_accessToken u = None /\ set_updatedAt u = time2 run)) /\
            forall a : Account,
              userId (update_row u a) = userId a /\
              scope (update_row u a) = scope a /\
              updatedAt (update_row u a)
              = (if userId a =? uid then set_updatedAt u else updatedAt a) /\
              (userId a <> uid -> update_row u a = a) /\
              (writes_access u = false ->
               accessToken (update_row u a) = accessToken a) /\
              (writes_refresh u = false ->
               refreshToken (update_row u a) = refreshToken a))
         (on_tokens uid run).
Proof.
  unfold on_tokens, refresh_issued, reaches_second_test.
  destruct (Js.truthy (t_access_token (at_start run))) eqn:Ha;
    [destruct (truthy_true_cases _ Ha) as (va & Hva & _);
     destruct (access_accepted run) |];
    (destruct (Js.truthy (t_refresh_token (at_second_test run))) eqn:Hr;
     [destruct (truthy_true_cases _ Hr) as (vr & Hvr & _) |]);
    cbn [andb]; unfold writes_access, writes_refresh;
    cbn [filter set_accessToken set_refreshToken length];
    rewrite ?Hva, ?Hvr; cbn [filter length];
    repeat split;
    repeat (apply Forall_cons;
            [split; [reflexivity
                    | split; [ | now apply on_tokens_row_frame]] |]);
    try apply Forall_nil;
    cbn [set_accessToken set_refreshToken set_updatedAt];
    unfold writes_access, writes_refresh;
    cbn [set_accessToken set_refreshToken];
    try (left; now repeat split); try (right; now repeat split).
Qed.

(** When the emitter leaves the payload alone and the store accepts, the
    listener's updates are one per token the event reports. *)
Lemma on_tokens_quiet (uid : string) (tokens : Tokens) (t1 t2 : Z) :
  on_tokens uid (quiet tokens t1 t2)
  = (if Js.truthy (t_access_token tokens)
     then [ {| set_accessToken := t_access_token tokens;
               set_refreshToken := None;
               set_updatedAt := t1;
               where_userId := uid |} ]
     else [])
    ++
    (if Js.truthy (t_refresh_token tokens)
     then [ {| set_accessToken := None;
               set_refreshToken := t_refresh_token tokens;
               set_updatedAt := t2;
               where_userId := uid |} ]
     else []).
Proof.
  unfold on_tokens, at_second_test, quiet.
  cbn [at_start after_await access_accepted time1 time2].
  now destruct (Js.truthy (t_access_token tokens)).
Qed.

(** A rotation that reports a new access token only, the payload left
    alone: one update, of the access-token column. *)
Lemma on_tokens_access_only :
  on_tokens "ann" (quiet Demo.access_only 10 11)
  = [ {| set_accessToken := Some "a1"; set_refreshToken := None;
         set_updatedAt := 10; where_userId := "ann" |} ].
Proof. reflexivity. Qed.

(** Its effect on the demo table: ann's access token and time stamp. *)
Lemma on_tokens_access_only_table :
  persist "ann" (quiet Demo.access_only 10 11) Demo.table
  = {| userId := "ann"; accessToken := Some "a1"; refreshToken := Some "r0";
       scope := Some Demo.calendar_scope; updatedAt := 10 |}
    :: tl Demo.table.
Proof. reflexivity. Qed.

Lemma on_tokens_writes_witness :
  length (filter writes_access
            (on_tokens "ann" (quiet Demo.access_only 10 11))) = 1 /\
  length (filter writes_refresh
            (on_tokens "ann" (quiet Demo.access_only 10 11))) = 0.
Proof.
  destruct (on_tokens_writes "ann" (quiet Demo.access_only 10 11))
    as (H1 & H2 & _).
  split; [exact H1 | exact H2].
Defined.

(** C8 as stated fails.  An event that reports a new access token only,
    whose payload the emitter fills in with the refresh token it holds while
    the first update is awaited, makes the listener update the refresh-token
    column, a field that did not rotate; and when the store rejects the
    first update of an event that reports both tokens, no update of the
    refresh-token column is issued. *)
Lemma on_tokens_refresh_counterexample :
  (t_refresh_token (at_start Demo.filled_in) = None /\
   filter writes_refresh (on_tokens "ann" Demo.filled_in)
   = [ {| set_accessToken := None; set_refreshToken := Some "r0";
          set_updatedAt := 11; where_userId := "ann" |} ]) /\
  (Js.truthy (t_refresh_token (at_start Demo.rejected)) = true /\
   filter writes_refresh (on_tokens "ann" Demo.rejected) = []).
Proof. repeat split. Qed.

(** ** The classifier of [getEvents] *)

(** The [catch] clause of [getEvents] as the cascade it is, for any error:
    each test is reached when the tests before it have failed. *)
Lemma getEvents_catch_cascade (e : JsError) :
  (has_status 401 e = true ->
   getEvents_catch e = mkError msg_AuthExpired) /\
  (has_status 401 e = false -> has_status 403 e = true ->
   says_api_not_enabled e = true ->
   getEvents_catch e = mkError msg_ApiNotEnabled) /\
  (has_status 401 e = false -> has_status 403 e = true ->
   says_api_not_enabled e = false -> says_insufficient e = true ->
   getEvents_catch e = mkError msg_InsufficientPermission) /\
  (has_status 401 e = false -> has_status 403 e = true ->
   says_api_not_enabled e = false -> says_insufficient e = false ->
   getEvents_catch e
   = mkError (msg_AccessDenied
                (if Js.truthy (errorMessage e)
                 then Js.template (errorMessage e)
                 else msg_AccessDenied_default))) /\
  (has_status 401 e = false -> has_status 403 e = false ->
   has_status 429 e = true ->
   getEvents_catch e = mkError msg_RateLimited) /\
  (has_status 401 e = false -> has_status 403 e = false ->
   has_status 429 e = false ->
   getEvents_catch e = mkError (msg_UpstreamFailure (Js.template (message e)))).
Proof.
  unfold getEvents_catch, says_api_not_enabled, says_insufficient.
  repeat split.
  - now intros ->.
  - now intros -> -> ->.
  - now intros -> -> -> ->.
  - intros -> -> -> ->. unfold Js.or_else at 1.
    now destruct (Js.truthy (errorMessage e)).
  - now intros -> -> ->.
  - now intros -> -> ->.
Qed.

Lemma one_status_same (e : JsError) : code e = status e -> one_status e.
Proof.
  intros H n m. unfold has_status. rewrite H, !orb_diag.
  destruct (status e) as [| z |]; simpl; try discriminate.
  intros Hn Hm. apply Z.eqb_eq in Hn, Hm. congruence.
Qed.

Lemma one_status_excludes (e : JsError) (n m : Z) :
  one_status e -> has_status n e = true -> n <> m -> has_status m e = false.
Proof.
  intros H Hn Hne. destruct (has_status m e) eqn:Hm; [| reflexivity].
  elim Hne. now apply H.
Qed.

(** C3.  For a failure of an event fetch, an error with one status, the
    [catch] clause of [getEvents] maps, in the order listed: status 401 to
    AuthExpired; status 403 with a message containing "Calendar API has not
    been used" or "has not been enabled" to ApiNotEnabled; status 403 with a
    message that is not of that sort and contains "insufficient" or "scope"
    to InsufficientPermission; any other status 403 to AccessDenied with
    the provider message echoed (a fixed hint when there is no message);
    status 429 to RateLimited; any other failure to UpstreamFailure with the
    error's message echoed. *)
Theorem getEvents_catch_classifies (e : JsError) :
  one_status e ->
  (has_status 401 e = true ->
   getEvents_catch e = mkError msg_AuthExpired) /\
  (has_status 403 e = true -> says_api_not_enabled e = true ->
   getEvents_catch e = mkError msg_ApiNotEnabled) /\
  (has_status 403 e = true ->
   says_api_not_enabled e = false -> says_insufficient e = true ->
   getEvents_catch e = mkError msg_InsufficientPermission) /\
  (has_status 403 e = true ->
   says_api_not_enabled e = false -> says_insufficient e = false ->
   getEvents_catch e
   = mkError (msg_AccessDenied
                (if Js.truthy (errorMessage e)
                 then Js.template (errorMessage e)
                 else msg_AccessDenied_default))) /\
  (has_status 429 e = true ->
   getEvents_catch e = mkError msg_RateLimited) /\
  (has_status 401 e = false -> has_status 403 e = false ->
   has_status 429 e = false ->
   getEvents_catch e = mkError (msg_UpstreamFailure (Js.template (message e)))).
Proof.
  intros H1.
  destruct (getEvents_catch_cascade e) as (C1 & C2 & C3 & C4 & C5 & C6).
  assert (H403 : has_status 403 e = true -> has_status 401 e = false).
  { intros H. now apply (one_status_excludes e 403 401 H1 H). }
  assert (H429 : has_status 429 e = true ->
                 has_status 401 e = false /\ has_status 403 e = false).
  { intros H. split;
      [now apply (one_status_excludes e 429 401 H1 H)
      | now apply (one_status_excludes e 429 403 H1 H)]. }
  repeat split.
  - exact C1.
  - intros H Hm. apply C2; auto.
  - intros H Hm Hi. apply C3; auto.
  - intros H Hm Hi. apply C4; auto.
  - intros H. destruct (H429 H). now apply C5.
  - exact C6.
Qed.

(** The six outcomes of C3 on provider errors. *)
Lemma getEvents_catch_classifies_witness :
  getEvents_catch Demo.e401 = mkError msg_AuthExpired /\
  getEvents_catch Demo.e403_both = mkError msg_ApiNotEnabled /\
  getEvents_catch Demo.e403_scope = mkError msg_InsufficientPermission /\
  getEvents_catch Demo.e403_plain = mkError (msg_AccessDenied "Forbidden") /\
  getEvents_catch Demo.e429 = mkError msg_RateLimited /\
  getEvents_catch Demo.e500 = mkError (msg_UpstreamFailure "Backend Error").
Proof.
  split; [| split; [| split; [| split; [| split]]]].
  - apply (proj1 (getEvents_catch_classifies Demo.e401
                    (one_status_same Demo.e401 eq_refl))).
    reflexivity.
  - apply (proj1 (proj2 (getEvents_catch_classifies Demo.e403_both
                           (one_status_same Demo.e403_both eq_refl))));
      reflexivity.
  - apply (proj1 (proj2 (proj2 (getEvents_catch_classifies Demo.e403_scope
                                  (one_status_same Demo.e403_scope eq_refl)))));
      reflexivity.
  - apply (proj1 (proj2 (proj2 (proj2
             (getEvents_catch_classifies Demo.e403_plain
                (one_status_same Demo.e403_plain eq_refl))))));
      reflexivity.
  - apply (proj1 (proj2 (proj2 (proj2 (proj2
             (getEvents_catch_classifies Demo.e429
                (one_status_same Demo.e429 eq_refl)))))));
      reflexivity.
  - apply (proj2 (proj2 (proj2 (proj2 (proj2
             (getEvents_catch_classifies Demo.e500
                (one_status_same Demo.e500 eq_refl)))))));
      reflexivity.
Defined.

(** ** Which failures are classified *)

Lemma classified_getEvents_catch (e : JsError) : classified (getEvents_catch e).
Proof.
  unfold getEvents_catch.
  destruct (has_status 401 e); [now exists AuthExpired |].
  destruct (has_status 403 e).
  - destruct (_ || _); [now exists ApiNotEnabled |].
    destruct (_ || _); [now exists InsufficientPermission |].
    exists AccessDenied. simpl. eexists. reflexivity.
  - destruct (has_status 429 e); [now exists RateLimited |].
    exists UpstreamFailure. simpl. eexists. reflexivity.
Qed.

Lemma try_catch_throw_inv {P A} (body : M P A) handler w e w' :
  try_catch body (fun error => throw (handler error)) w = (Throw e, w') ->
  exists e0, fst (body w) = Throw e0 /\ e = handler e0.
Proof.
  unfold try_catch, throw.
  destruct (body w) as [[a | e0 |] w1]; intros H; try discriminate.
  injection H as <- <-. now exists e0.
Qed.

Lemma mutation_throws {P A B} (uid : string) req
      (step : Client -> Remote P -> (JsError + A) * Remote P)
      (k : A -> M P B) (w : World P) client e :
  getCalendarClient uid w = (Ret client, w) ->
  fst (step client (remote w)) = inl e ->
  fst (bind (getCalendarClient uid)
            (fun calendar => bind (call req (step calendar)) k) w) = Throw e.
Proof.
  intros Hc He.
  erewrite bind_ret by exact Hc.
  erewrite bind_throw by (apply call_fail; exact He).
  reflexivity.
Qed.

(** C1, as amended.  Of the five operations only [getEvents] classifies:
    every error it surfaces is of one of the six kinds.  [listCalendars]
    surfaces every failure as its own "Failed to fetch calendar list: ..."
    error with the failure's message echoed, whatever the status was.
    [createEvent], [updateEvent] and [deleteEvent] surface the failure of
    their remote call as it is. *)
Theorem failures_surface {P : Provider} (uid : string) (w : World P) :
  (forall fuel timeMin timeMax sel e w',
      getEvents fuel uid timeMin timeMax sel w = (Throw e, w') ->
      classified e) /\
  (forall e w',
      listCalendars uid w = (Throw e, w') ->
      exists e0, e = listCalendars_catch e0) /\
  (forall client e0,
      getCalendarClient uid w = (Ret client, w) ->
      fst (calendarList_list P client (remote w)) = inl e0 ->
      fst (listCalendars uid w) = Throw (listCalendars_catch e0)) /\
  (forall client event e0,
      getCalendarClient uid w = (Ret client, w) ->
      fst (events_insert P client "primary" event (remote w)) = inl e0 ->
      fst (createEvent uid event w) = Throw e0) /\
  (forall client eventId event e0,
      getCalendarClient uid w = (Ret client, w) ->
      fst (events_update P client "primary" eventId event (remote w)) = inl e0 ->
      fst (updateEvent uid eventId event w) = Throw e0) /\
  (forall client eventId e0,
      getCalendarClient uid w = (Ret client, w) ->
      fst (events_delete P client "primary" eventId (remote w)) = inl e0 ->
      fst (deleteEvent uid eventId w) = Throw e0).
Proof.
  repeat split.
  - intros fuel timeMin timeMax sel e w' H.
    apply try_catch_throw_inv in H. destruct H as (e0 & _ & ->).
    apply classified_getEvents_catch.
  - intros e w' H.
    apply try_catch_throw_inv in H. destruct H as (e0 & _ & ->).
    now exists e0.
  - intros client e0 Hc He. unfold listCalendars, try_catch.
    erewrite bind_ret by exact Hc.
    erewrite bind_throw by (apply call_fail; exact He).
    reflexivity.
  - intros client event e0 Hc He.
    exact (mutation_throws uid _ (fun c => events_insert P c "primary" event)
             _ w client e0 Hc He).
  - intros client eventId event e0 Hc He.
    exact (mutation_throws uid _
             (fun c => events_update P c "primary" eventId event)
             _ w client e0 Hc He).
  - intros client eventId e0 Hc He.
    exact (mutation_throws uid _ (fun c => events_delete P c "primary" eventId)
             _ w client e0 Hc He).
Qed.

(** C1 on the provider that answers 401 to everything: [getEvents]
    classifies, the others do not. *)
Lemma failures_surface_witness :
  classified (mkError msg_AuthExpired) /\
  fst (listCalendars "ann" (Demo.world Demo.expired 0))
  = Throw (listCalendars_catch Demo.e401) /\
  fst (createEvent "ann" Demo.draft (Demo.world Demo.expired 0))
  = Throw Demo.e401.
Proof.
  pose proof (failures_surface "ann" (Demo.world Demo.expired 0))
    as (Hget & _ & Hlist & Hcreate & _).
  split; [| split].
  - eapply (Hget 3 None None (Some (One "A"))). reflexivity.
  - apply (Hlist Demo.ann); reflexivity.
  - apply (Hcreate Demo.ann); reflexivity.
Defined.

(** C1 as stated fails.  With a provider answering 401, [createEvent]
    surfaces the provider's error itself and [listCalendars] its generic
    error; neither is of a classified kind, and neither is the AuthExpired
    error the classifier gives for a 401. *)
Lemma unclassified_failures_counterexample :
  (fst (createEvent "ann" Demo.draft (Demo.world Demo.expired 0))
   = Throw Demo.e401 /\
   ~ classified Demo.e401 /\
   getEvents_catch Demo.e401 = mkError msg_AuthExpired) /\
  (fst (listCalendars "ann" (Demo.world Demo.expired 0))
   = Throw (mkError "Failed to fetch calendar list: Invalid Credentials") /\
   ~ classified (mkError "Failed to fetch calendar list: Invalid Credentials")).
Proof.
  repeat split; try reflexivity.
  - intros [k H]. destruct k; cbn in H;
      [ | | | destruct H as [d H] | | destruct H as [d H]]; discriminate.
  - intros [k H]. destruct k; cbn in H;
      [ | | | destruct H as [d H] | | destruct H as [d H]]; discriminate.
Qed.

(** ** getEvents *)

Section GetEvents.
Context {P : Provider}.

Lemma getEvents_run fuel uid timeMin timeMax sel (w : World P) client calIds w1 :
  getCalendarClient uid w = (Ret client, w) ->
  select_calendars uid sel w = (Ret calIds, w1) ->
  getEvents fuel uid timeMin timeMax sel w =
  try_catch (for_calendars fuel client timeMin timeMax calIds [])
            (fun error => throw (getEvents_catch error)) w1.
Proof.
  intros Hc Hsel. unfold getEvents, try_catch.
  erewrite bind_ret by exact Hc.
  erewrite bind_ret by exact Hsel.
  reflexivity.
Qed.

Lemma getEvents_ret_inv fuel uid timeMin timeMax sel (w : World P) evs w' :
  getEvents fuel uid timeMin timeMax sel w = (Ret evs, w') ->
  exists client calIds w1,
    getCalendarClient uid w = (Ret client, w) /\
    select_calendars uid sel w = (Ret calIds, w1) /\
    for_calendars fuel client timeMin timeMax calIds [] w1 = (Ret evs, w').
Proof.
  unfold getEvents, try_catch, throw.
  match goal with |- context [match ?b w with _ => _ end] =>
    destruct (b w) as [[a | e |] w2] eqn:Hb end;
    intros H; try discriminate.
  injection H as <- <-.
  apply bind_inv_ret in Hb. destruct Hb as (client & w0 & Hc & Hb).
  pose proof (getCalendarClient_world _ _ _ _ Hc) as ->.
  apply bind_inv_ret in Hb. destruct Hb as (calIds & w1 & Hsel & Hfor).
  now exists client, calIds, w1.
Qed.

Lemma select_calendars_enumerated uid sel (w : World P) client cals :
  sel_truthy sel = false ->
  getCalendarClient uid w = (Ret client, w) ->
  fst (calendarList_list P client (remote w)) = inr cals ->
  select_calendars uid sel w =
  (Ret (map cal_id (match cals with Some l => l | None => [] end)),
   world_with w (snd (calendarList_list P client (remote w))) [CalendarListList]).
Proof.
  intros Hsel Hc Hl.
  assert (Hlist : listCalendars uid w =
                  (Ret (match cals with Some l => l | None => [] end),
                   world_with w (snd (calendarList_list P client (remote w)))
                              [CalendarListList])).
  { unfold listCalendars, try_catch.
    erewrite bind_ret by exact Hc.
    erewrite bind_ret by (apply call_ok; exact Hl).
    reflexivity. }
  unfold select_calendars. rewrite Hsel.
  erewrite bind_ret by exact Hlist. reflexivity.
Qed.

Lemma requests_all_paged calendar timeMin timeMax calIds :
  forall (r : Remote P) pagess,
    serves_all calendar timeMin timeMax calIds r pagess ->
    paged calIds pagess (requests_all calendar timeMin timeMax calIds r pagess).
Proof.
  induction calIds as [| c cs IH]; intros r [| pages pagess] Hs;
    try (now destruct Hs).
  destruct Hs as [_ Hrest]. simpl. split; [| split].
  - apply page_requests_length.
  - unfold page_requests. induction (page_tokens pages) as [| tok toks IHt].
    + constructor.
    + constructor; [| exact IHt].
      eexists. repeat split.
  - apply IH. exact Hrest.
Qed.

End GetEvents.

(** A run over calendars that are all answered: result, final world, log. *)
Lemma getEvents_serves {P : Provider} (fuel : nat) (uid : string)
    (timeMin timeMax : option string) (sel : option CalendarSel)
    (w w1 : World P) (client : Client) (calIds : list string)
    (pagess : list (list EventsData)) :
  getCalendarClient uid w = (Ret client, w) ->
  select_calendars uid sel w = (Ret calIds, w1) ->
  serves_all client timeMin timeMax calIds (remote w1) pagess ->
  within fuel pagess ->
  getEvents fuel uid timeMin timeMax sel w =
  (Ret (merged calIds pagess),
   world_with w1
     (after_all client timeMin timeMax calIds (remote w1) pagess)
     (concat (requests_all client timeMin timeMax calIds (remote w1) pagess))).
Proof.
  intros Hc Hsel Hs Hf.
  rewrite (getEvents_run _ _ _ _ _ _ _ _ _ Hc Hsel). unfold try_catch.
  now rewrite (for_calendars_serves calIds pagess) by assumption.
Qed.

(** C6.  In a run of [getEvents] where the selected calendars are answered
    by the page lists [pagess] (for each calendar every page but the last
    carries a continuation token, a non-empty one, and the last carries
    none), the run returns, and the requests it adds to the log are, calendar
    by calendar, exactly one request per page: each for that calendar with
    page size 250, the first without a page token and every later one with
    the token of the page before.  The result holds the items of all pages of
    every calendar, in page order, each once. *)
Theorem getEvents_pagination {P : Provider} (fuel : nat) (uid : string)
    (timeMin timeMax : option string) (sel : option CalendarSel)
    (w w1 : World P) (client : Client) (calIds : list string)
    (pagess : list (list EventsData)) :
  getCalendarClient uid w = (Ret client, w) ->
  select_calendars uid sel w = (Ret calIds, w1) ->
  serves_all client timeMin timeMax calIds (remote w1) pagess ->
  within fuel pagess ->
  getEvents fuel uid timeMin timeMax sel w =
  (Ret (merged calIds pagess),
   world_with w1
     (after_all client timeMin timeMax calIds (remote w1) pagess)
     (concat (requests_all client timeMin timeMax calIds (remote w1) pagess)))
  /\ paged calIds pagess
           (requests_all client timeMin timeMax calIds (remote w1) pagess).
Proof.
  intros Hc Hsel Hs Hf. split.
  - now apply getEvents_serves.
  - now apply requests_all_paged.
Qed.

(** C6 on calendar A of the demo provider: two pages, two requests, the
    second with the token of the first page. *)
Lemma getEvents_pagination_witness :
  getEvents 2 "ann" (Some "2024-01-01T00:00:00Z") None (Some (One "A"))
            (Demo.world Demo.provider 0)
  = (Ret (map (set_calendarId "A") [Demo.ev "A1"; Demo.ev "A2"; Demo.ev "A3"]),
     Build_World Demo.provider Demo.table 2
       [ EventsList (queryParams Demo.now "A" (Some "2024-01-01T00:00:00Z")
                       None None);
         EventsList (queryParams Demo.now "A" (Some "2024-01-01T00:00:00Z")
                       None (Some "t1")) ]).
Proof.
  refine (proj1 (getEvents_pagination 2 "ann" (Some "2024-01-01T00:00:00Z") None
                   (Some (One "A")) (Demo.world Demo.provider 0)
                   (Demo.world Demo.provider 0) Demo.ann ["A"] [Demo.pagesA]
                   eq_refl eq_refl _ _)).
  - simpl. repeat split.
  - repeat constructor.
Defined.

(** C5.  A successful aggregation is the concatenation of the per-calendar
    lists in selection order, each list being the calendar's pages in the
    order they were served: the order of the caller's list when one is
    given, the single calendar when one identifier is given, and the order of
    the enumerator's answer otherwise.  Nothing is sorted or interleaved
    across calendars. *)
Theorem getEvents_merge_order {P : Provider} (fuel : nat) (uid : string)
    (timeMin timeMax : option string) (w : World P) (client : Client) :
  getCalendarClient uid w = (Ret client, w) ->
  (forall calIds pagess,
      serves_all client timeMin timeMax calIds (remote w) pagess ->
      within fuel pagess ->
      fst (getEvents fuel uid timeMin timeMax (Some (Many calIds)) w)
      = Ret (merged calIds pagess)) /\
  (forall calId pages,
      calId <> "" ->
      serves client (query_of timeMin timeMax (remote w) calId) None
             (remote w) pages ->
      length pages <= fuel ->
      fst (getEvents fuel uid timeMin timeMax (Some (One calId)) w)
      = Ret (calendar_events calId pages)) /\
  (forall sel cals pagess,
      sel_truthy sel = false ->
      fst (calendarList_list P client (remote w)) = inr cals ->
      serves_all client timeMin timeMax
        (map cal_id (match cals with Some l => l | None => [] end))
        (snd (calendarList_list P client (remote w))) pagess ->
      within fuel pagess ->
      fst (getEvents fuel uid timeMin timeMax sel w)
      = Ret (merged (map cal_id (match cals with Some l => l | None => [] end))
                    pagess)).
Proof.
  intros Hc. split; [| split].
  - intros calIds pagess Hs Hf.
    now rewrite (getEvents_serves fuel uid timeMin timeMax
                   (Some (Many calIds)) w w client calIds pagess
                   Hc eq_refl Hs Hf).
  - intros calId pages Hne Hs Hf.
    assert (Hsel : select_calendars uid (Some (One calId)) w = (Ret [calId], w)).
    { unfold select_calendars, sel_truthy.
      destruct (String.eqb_spec calId ""); [contradiction | reflexivity]. }
    rewrite (getEvents_serves fuel uid timeMin timeMax
               (Some (One calId)) w w client [calId] [pages]
               Hc Hsel (conj Hs I) (Forall_cons _ Hf (Forall_nil _))).
    simpl. now rewrite app_nil_r.
  - intros sel cals pagess Hsel Hl Hs Hf.
    pose proof (select_calendars_enumerated uid sel w client cals Hsel Hc Hl)
      as Hen.
    now rewrite (getEvents_serves fuel uid timeMin timeMax
                   sel w _ client _ pagess Hc Hen Hs Hf).
Qed.

(** C5 on the demo provider, no calendar named: calendar A (three events
    over two pages) then calendar B (two events), in the enumerator's
    order. *)
Lemma getEvents_merge_order_witness :
  fst (getEvents 2 "ann" None None None (Demo.world Demo.provider 0))
  = Ret (map (set_calendarId "A") [Demo.ev "A1"; Demo.ev "A2"; Demo.ev "A3"]
         ++ map (set_calendarId "B") [Demo.ev "B1"; Demo.ev "B2"]).
Proof.
  apply (proj2 (proj2 (getEvents_merge_order 2 "ann" None None
                         (Demo.world Demo.provider 0) Demo.ann eq_refl))
           None (Some [Demo.cal "A" true; Demo.cal "B" false])
           [Demo.pagesA; Demo.pagesB] eq_refl eq_refl).
  - simpl. repeat split.
  - repeat constructor.
Defined.

(** C4.  If, in the selection order, the calendars [before] are answered
    in full and the fetch of the next calendar [c] fails, on its first page
    or after some pages, with error [e], then [getEvents] as a whole throws
    (the classified form of [e]): it returns no events, none of the events
    already fetched from [before] either, and the calendars after [c] play
    no part. *)
Theorem getEvents_all_or_nothing {P : Provider} (fuel : nat) (uid : string)
    (timeMin timeMax : option string) (sel : option CalendarSel)
    (w w1 : World P) (client : Client)
    (before : list string) (c : string) (rest : list string)
    (pagess : list (list EventsData)) (pages : list EventsData) (e : JsError) :
  getCalendarClient uid w = (Ret client, w) ->
  select_calendars uid sel w = (Ret (before ++ c :: rest), w1) ->
  serves_all client timeMin timeMax before (remote w1) pagess ->
  within fuel pagess ->
  fails_after client
    (query_of timeMin timeMax
       (after_all client timeMin timeMax before (remote w1) pagess) c)
    None (after_all client timeMin timeMax before (remote w1) pagess)
    pages e ->
  length pages < fuel ->
  exists w',
    getEvents fuel uid timeMin timeMax sel w = (Throw (getEvents_catch e), w').
Proof.
  intros Hc Hsel Hs Hf Hfail Hlen.
  rewrite (getEvents_run _ _ _ _ _ _ _ _ _ Hc Hsel). unfold try_catch.
  destruct (for_calendars_fails before pagess c rest pages e fuel client
              timeMin timeMax [] w1 Hs Hf Hfail Hlen) as [w' Hw'].
  rewrite Hw'. now exists w'.
Qed.

(** C4 on the demo provider: calendar A is fetched in full, calendar Z
    answers 500, calendar B is never reached, and the call throws. *)
Lemma getEvents_all_or_nothing_witness :
  exists w',
    getEvents 2 "ann" None None (Some (Many ["A"; "Z"; "B"]))
              (Demo.world Demo.provider 0)
    = (Throw (mkError (msg_UpstreamFailure "Backend Error")), w').
Proof.
  refine (getEvents_all_or_nothing 2 "ann" None None (Some (Many ["A"; "Z"; "B"]))
            (Demo.world Demo.provider 0) (Demo.world Demo.provider 0) Demo.ann
            ["A"] "Z" ["B"] [Demo.pagesA] [] Demo.e500 eq_refl eq_refl _ _ _ _).
  - simpl. repeat split.
  - repeat constructor.
  - reflexivity.
  - simpl. lia.
Defined.

(** C9.  Every event of a successful aggregation carries one
    calendar-source identifier, and that identifier is one of the selected
    calendar identifiers, for which an event query was issued in this run. *)
Theorem getEvents_tagged {P : Provider} (fuel : nat) (uid : string)
    (timeMin timeMax : option string) (sel : option CalendarSel)
    (w w' : World P) (evs : list Event) :
  getEvents fuel uid timeMin timeMax sel w = (Ret evs, w') ->
  exists calIds w1 l,
    select_calendars uid sel w = (Ret calIds, w1) /\
    log w' = log w1 ++ l /\
    Forall (fun ev =>
              exists c, calendarId ev = Some c /\
                        (forall c', calendarId ev = Some c' -> c' = c) /\
                        In c calIds /\ queried l c) evs.
Proof.
  intros H. apply getEvents_ret_inv in H.
  destruct H as (client & calIds & w1 & _ & Hsel & Hfor).
  apply for_calendars_tagged in Hfor.
  destruct Hfor as (new & l & -> & Hl & Hnew).
  exists calIds, w1, l. repeat split; try assumption.
  simpl. eapply Forall_impl; [| exact Hnew].
  intros ev (c & Hc & Hin & Hq). exists c. repeat split; try assumption.
  intros c' Hc'. congruence.
Qed.

(** C9 on the demo provider, calendars B then A named by the caller. *)
Lemma getEvents_tagged_witness :
  exists calIds w1 l,
    select_calendars "ann" (Some (Many ["B"; "A"])) (Demo.world Demo.provider 0)
    = (Ret calIds, w1) /\
    log (Build_World Demo.provider Demo.table 3
           [ EventsList (queryParams Demo.now "B" None None None);
             EventsList (queryParams Demo.now "A" None None None);
             EventsList (queryParams Demo.now "A" None None (Some "t1")) ])
    = log w1 ++ l /\
    Forall (fun ev =>
              exists c, calendarId ev = Some c /\
                        (forall c', calendarId ev = Some c' -> c' = c) /\
                        In c calIds /\ queried l c)
           (map (set_calendarId "B") [Demo.ev "B1"; Demo.ev "B2"]
            ++ map (set_calendarId "A") [Demo.ev "A1"; Demo.ev "A2"; Demo.ev "A3"]).
Proof.
  apply (getEvents_tagged 2 "ann" None None (Some (Many ["B"; "A"]))
           (Demo.world Demo.provider 0)).
  reflexivity.
Defined.

(** C10.  For a user whose credentials resolve, [getEvents] with an
    explicitly given empty list of calendar identifiers returns the empty
    sequence and leaves the world as it was: nothing is added to the log
    (no enumeration, no event query) and the provider is not touched. *)
Theorem getEvents_empty_selection {P : Provider} (fuel : nat) (uid : string)
    (timeMin timeMax : option string) (w : World P) (client : Client) :
  fst (getCalendarClient uid w) = Ret client ->
  getEvents fuel uid timeMin timeMax (Some (Many [])) w = (Ret [], w).
Proof.
  intros Hc.
  assert (Hc' : getCalendarClient uid w = (Ret client, w)).
  { destruct (getCalendarClient uid w) as [r w0] eqn:E.
    pose proof (getCalendarClient_world _ _ _ _ E) as ->.
    simpl in Hc. now subst. }
  now rewrite (getEvents_run fuel uid timeMin timeMax (Some (Many [])) w
                 client [] w Hc' eq_refl).
Qed.

Lemma getEvents_empty_selection_witness :
  getEvents 0 "ann" None None (Some (Many [])) (Demo.world Demo.provider 0)
  = (Ret [], Demo.world Demo.provider 0).
Proof.
  apply (getEvents_empty_selection 0 "ann" None None
           (Demo.world Demo.provider 0) Demo.ann).
  reflexivity.
Defined.

(** An empty string given as the single identifier is not a selection: the
    enumerator is asked. *)
Lemma getEvents_empty_string_enumerates :
  log (snd (getEvents 2 "ann" None None (Some (One ""))
                      (Demo.world Demo.provider 0)))
  = CalendarListList
    :: [ EventsList (queryParams Demo.now "A" None None None);
         EventsList (queryParams Demo.now "A" None None (Some "t1"));
         EventsList (queryParams Demo.now "B" None None None) ].
Proof. reflexivity. Qed.

(** [updateEvent] sends the draft as it is, in one [events.update] request
    for the primary calendar; what the provider then does with the fields
    the draft leaves out is not decided by the service. *)
Lemma updateEvent_request {P : Provider} (uid eventId : string)
    (event : PartialEventDraft) (w : World P) (client : Client) :
  getCalendarClient uid w = (Ret client, w) ->
  log (snd (updateEvent uid eventId event w))
  = log w ++ [EventsUpdate "primary" eventId event].
Proof.
  intros Hc. unfold updateEvent.
  erewrite bind_ret by exact Hc.
  unfold bind, call.
  destruct (events_update P client "primary" eventId event (remote w))
    as [[e | ev] r]; reflexivity.
Qed.

(** ** Further properties: credential resolution *)

Lemma getCalendarClient_outcome {P : Provider} (uid : string) (w : World P) :
  getCalendarClient uid w =
  (match credential_record uid (db w) with
   | None => Throw NoLinkedAccount
   | Some a =>
       if negb (Js.truthy (accessToken a)) then Throw MissingAccessToken
       else if Js.truthy (scope a) && negb (has_calendar_capability (scope a))
       then Throw InsufficientScope
       else Ret {| access_token := Js.template (accessToken a);
                   refresh_token := refreshToken a;
                   owner := uid |}
   end, w).
Proof.
  unfold getCalendarClient, credential_record, throw, ret.
  destruct (select_account uid (db w)) as [| a l]; [reflexivity |].
  rewrite <- missing_calendar_scopes_spec.
  destruct (accessToken a) as [tok |]; [| reflexivity]. simpl.
  destruct (tok =? ""); [reflexivity |]. simpl.
  now destruct (missing_calendar_scopes (scope a)).
Qed.

Lemma getCalendarClient_throws {P : Provider} (uid : string) (w : World P) e :
  fst (getCalendarClient uid w) = Throw e ->
  e = NoLinkedAccount \/ e = MissingAccessToken \/ e = InsufficientScope.
Proof.
  rewrite getCalendarClient_outcome. cbn [fst].
  destruct (credential_record uid (db w)) as [a |]; [| intros [= <-]; auto].
  destruct (negb (Js.truthy (accessToken a))); [intros [= <-]; auto |].
  destruct (Js.truthy (scope a) && negb (has_calendar_capability (scope a)));
    [intros [= <-]; auto | discriminate].
Qed.

(** X1.  Resolution returns a client exactly when the user has a record, the
    record's access token is non-empty, and its scope string is absent or
    empty (then it is not examined) or names a calendar capability.  It
    otherwise throws one of its three errors, and it always comes back. *)
Theorem getCalendarClient_succeeds_iff {P : Provider} (uid : string)
    (w : World P) :
  ((exists client, fst (getCalendarClient uid w) = Ret client) <->
   (exists a, credential_record uid (db w) = Some a /\
              Js.truthy (accessToken a) = true /\
              (Js.truthy (scope a) = false \/
               has_calendar_capability (scope a) = true))) /\
  (forall e, fst (getCalendarClient uid w) = Throw e ->
             e = NoLinkedAccount \/ e = MissingAccessToken \/
             e = InsufficientScope) /\
  fst (getCalendarClient uid w) <> Diverge.
Proof.
  rewrite getCalendarClient_outcome. cbn [fst].
  destruct (credential_record uid (db w)) as [a |].
  - destruct (Js.truthy (accessToken a)) eqn:Ht; cbn [negb].
    + destruct (Js.truthy (scope a)) eqn:Hs; cbn [andb].
      * destruct (has_calendar_capability (scope a)) eqn:Hc; cbn [negb].
        -- repeat split; try discriminate.
           ++ intros _. exists a. auto.
           ++ intros _. eexists. reflexivity.
        -- repeat split; try discriminate.
           ++ intros [c [=]].
           ++ intros (a' & [= <-] & _ & [H | H]); congruence.
           ++ intros e [= <-]. auto.
      * repeat split; try discriminate.
        -- intros _. exists a. auto.
        -- intros _. eexists. reflexivity.
    + repeat split; try discriminate.
      * intros [c [=]].
      * intros (a' & [= <-] & H & _). congruence.
      * intros e [= <-]. auto.
  - repeat split; try discriminate.
    + intros [c [=]].
    + intros (a' & [=] & _).
    + intros e [= <-]. auto.
Qed.

(** cat's record has a token and an empty scope string: it resolves. *)
Lemma getCalendarClient_succeeds_iff_witness :
  exists client,
    fst (getCalendarClient "cat" (Demo.world Demo.provider 0)) = Ret client.
Proof.
  apply (proj1 (getCalendarClient_succeeds_iff "cat" (Demo.world Demo.provider 0))).
  exists (Demo.account "cat" (Some "c0") (Some "")).
  repeat split. now left.
Defined.

(** *** The scope test is a substring test *)

Lemma prefix_app (n post : string) : String.prefix n (n ++ post)%string = true.
Proof.
  induction n as [| c n IH]; simpl; [now destruct post |].
  destruct (Ascii.ascii_dec c c) as [_ | N]; [exact IH | now elim N].
Qed.

Lemma prefix_split (n h : string) :
  String.prefix n h = true -> exists post, h = (n ++ post)%string.
Proof.
  revert h. induction n as [| c n IH]; intros h H.
  - now exists h.
  - destruct h as [| d h]; simpl in H; [discriminate |].
    destruct (Ascii.ascii_dec c d) as [-> | _]; [| discriminate].
    destruct (IH h H) as [post ->]. now exists post.
Qed.

Lemma includes_substring (n h : string) :
  Js.includes n h = true <-> exists pre post, h = (pre ++ n ++ post)%string.
Proof.
  split.
  - induction h as [| d h IH]; cbn [Js.includes].
    + destruct (String.prefix n "") eqn:E; [| intros [=]].
      intros _. destruct (prefix_split _ _ E) as [post Hp]. now exists "", post.
    + destruct (String.prefix n (String d h)) eqn:E.
      * intros _. destruct (prefix_split _ _ E) as [post Hp]. now exists "", post.
      * intros H. destruct (IH H) as (pre & post & ->).
        now exists (String d pre), post.
  - intros (pre & post & ->). induction pre as [| d pre IH].
    + change ("" ++ n ++ post)%string with (n ++ post)%string.
      pose proof (prefix_app n post) as Hp.
      destruct (n ++ post)%string; cbn [Js.includes]; now rewrite Hp.
    + change (String d pre ++ n ++ post)%string
        with (String d (pre ++ n ++ post)%string).
      cbn [Js.includes]. rewrite IH.
      now destruct (String.prefix n (String d (pre ++ n ++ post)%string)).
Qed.

(** X2.  The scope test lets a scope string pass exactly when it is empty or has
    [calendar.readonly] or [calendar.events] somewhere inside it, as a
    substring and not as a whole space-delimited token. *)
Theorem missing_calendar_scopes_substring (s : string) :
  missing_calendar_scopes (Some s) = false <->
  s = "" \/
  exists pre post, s = (pre ++ "calendar.readonly" ++ post)%string \/
                   s = (pre ++ "calendar.events" ++ post)%string.
Proof.
  rewrite missing_calendar_scopes_spec. unfold has_calendar_capability.
  cbn [Js.truthy Js.opt_includes].
  destruct (String.eqb_spec s "") as [-> | Hne]; cbn [negb andb].
  - split; auto.
  - rewrite negb_false_iff, orb_true_iff, !includes_substring. split.
    + intros [(pre & post & H) | (pre & post & H)]; right; exists pre, post; auto.
    + intros [H | (pre & post & [H | H])]; [contradiction | left | right];
        now exists pre, post.
Qed.

(** A scope that only has a longer capability name passes all the same. *)
Lemma missing_calendar_scopes_substring_witness :
  missing_calendar_scopes
    (Some "https://www.googleapis.com/auth/calendar.events.owned") = false.
Proof.
  apply (proj2 (missing_calendar_scopes_substring
                  "https://www.googleapis.com/auth/calendar.events.owned")).
  right. exists "https://www.googleapis.com/auth/", ".owned". now right.
Defined.

(** ** Further properties: what the operations surface and send *)

Lemma getCalendarClient_run {P : Provider} (uid : string) (w : World P) r :
  fst (getCalendarClient uid w) = r -> getCalendarClient uid w = (r, w).
Proof.
  destruct (getCalendarClient uid w) as [r' w'] eqn:E.
  pose proof (getCalendarClient_world _ _ _ _ E) as ->.
  now intros <-.
Qed.

Lemma getEvents_catch_plain (m : string) :
  getEvents_catch (mkError m) = mkError (msg_UpstreamFailure m).
Proof. reflexivity. Qed.

(** X3.  When the credentials do not resolve, no operation reaches the provider
    and the world is left as it was.  [createEvent], [updateEvent] and
    [deleteEvent] surface the resolver's error itself; [listCalendars]
    and [getEvents] surface it inside their own generic error, so that from
    [getEvents] a missing account reads "Failed to fetch calendar events: No
    Google account linked". *)
Theorem unresolved_credentials_surface {P : Provider} (uid : string)
    (w : World P) (e : JsError) :
  fst (getCalendarClient uid w) = Throw e ->
  (forall fuel timeMin timeMax sel,
      getEvents fuel uid timeMin timeMax sel w
      = (Throw (mkError (msg_UpstreamFailure (Js.template (message e)))), w)) /\
  listCalendars uid w
  = (Throw (mkError ("Failed to fetch calendar list: "
                     ++ Js.template (message e))), w) /\
  (forall event, createEvent uid event w = (Throw e, w)) /\
  (forall eventId event, updateEvent uid eventId event w = (Throw e, w)) /\
  (forall eventId, deleteEvent uid eventId w = (Throw e, w)).
Proof.
  intros H.
  assert (Hplain : e = mkError (Js.template (message e))).
  { destruct (getCalendarClient_throws uid w e H) as [-> | [-> | ->]];
      reflexivity. }
  apply getCalendarClient_run in H.
  repeat split.
  - intros fuel timeMin timeMax sel. unfold getEvents, try_catch.
    erewrite bind_throw by exact H. unfold throw.
    rewrite Hplain at 1. now rewrite getEvents_catch_plain.
  - unfold listCalendars, try_catch.
    erewrite bind_throw by exact H. reflexivity.
  - intros event. unfold createEvent. now erewrite bind_throw by exact H.
  - intros eventId event. unfold updateEvent. now erewrite bind_throw by exact H.
  - intros eventId. unfold deleteEvent. now erewrite bind_throw by exact H.
Qed.

(** eve has no linked account. *)
Lemma unresolved_credentials_surface_witness :
  getEvents 3 "eve" None None None (Demo.world Demo.provider 0)
  = (Throw (mkError "Failed to fetch calendar events: No Google account linked"),
     Demo.world Demo.provider 0) /\
  deleteEvent "eve" "ev1" (Demo.world Demo.provider 0)
  = (Throw NoLinkedAccount, Demo.world Demo.provider 0).
Proof.
  pose proof (unresolved_credentials_surface "eve" (Demo.world Demo.provider 0)
                NoLinkedAccount eq_refl) as (Hget & _ & _ & _ & Hdel).
  split; [apply (Hget 3 None None None) | apply (Hdel "ev1")].
Defined.

(** X4.  With credentials that resolve, [listCalendars] sends one calendar-list
    request and returns the provider's entries in the provider's order; a
    response without an [items] field gives the empty sequence, not an
    error. *)
Theorem listCalendars_returns {P : Provider} (uid : string) (w : World P)
    (client : Client) (cals : option (list CalendarListEntry)) :
  fst (getCalendarClient uid w) = Ret client ->
  fst (calendarList_list P client (remote w)) = inr cals ->
  listCalendars uid w
  = (Ret (match cals with Some l => l | None => [] end),
     world_with w (snd (calendarList_list P client (remote w)))
                [CalendarListList]).
Proof.
  intros Hc Hl. apply getCalendarClient_run in Hc.
  unfold listCalendars, try_catch.
  erewrite bind_ret by exact Hc.
  erewrite bind_ret by (apply call_ok; exact Hl).
  reflexivity.
Qed.

Lemma listCalendars_returns_witness :
  listCalendars "ann" (Demo.world Demo.provider 0)
  = (Ret [Demo.cal "A" true; Demo.cal "B" false],
     Build_World Demo.provider Demo.table 1 [CalendarListList]).
Proof.
  apply (listCalendars_returns "ann" (Demo.world Demo.provider 0) Demo.ann
           (Some [Demo.cal "A" true; Demo.cal "B" false])); reflexivity.
Defined.

(** X5.  When no calendar is named and the enumeration fails, [getEvents] stops
    after that one request, asks for no events, and surfaces the generic
    failure wrapped twice; the status of the provider's error is lost on the
    way, so that even a 401 is not reported as an expired authentication. *)
Theorem getEvents_enumerator_failure {P : Provider} (fuel : nat)
    (uid : string) (timeMin timeMax : option string)
    (sel : option CalendarSel) (w : World P) (client : Client)
    (e0 : JsError) :
  fst (getCalendarClient uid w) = Ret client ->
  sel_truthy sel = false ->
  fst (calendarList_list P client (remote w)) = inl e0 ->
  getEvents fuel uid timeMin timeMax sel w
  = (Throw (mkError (msg_UpstreamFailure
                       ("Failed to fetch calendar list: "
                        ++ Js.template (message e0)))),
     world_with w (snd (calendarList_list P client (remote w)))
                [CalendarListList]).
Proof.
  intros Hc Hsel Hl. apply getCalendarClient_run in Hc.
  assert (Hlist : listCalendars uid w
                  = (Throw (listCalendars_catch e0),
                     world_with w (snd (calendarList_list P client (remote w)))
                                [CalendarListList])).
  { unfold listCalendars, try_catch.
    erewrite bind_ret by exact Hc.
    erewrite bind_throw by (apply call_fail; exact Hl).
    reflexivity. }
  unfold getEvents, try_catch.
  erewrite bind_ret by exact Hc.
  erewrite bind_throw;
    [| unfold select_calendars; rewrite Hsel;
       apply bind_throw; exact Hlist].
  reflexivity.
Qed.

Lemma getEvents_enumerator_failure_witness :
  getEvents 3 "ann" None None None (Demo.world Demo.expired 0)
  = (Throw (mkError "Failed to fetch calendar events: Failed to fetch calendar list: Invalid Credentials"),
     Build_World Demo.expired Demo.table 1 [CalendarListList]).
Proof.
  apply (getEvents_enumerator_failure 3 "ann" None None None
           (Demo.world Demo.expired 0) Demo.ann Demo.e401); reflexivity.
Defined.

(** X6.  With credentials that resolve, each of [createEvent], [updateEvent]
    and [deleteEvent] sends exactly one request, always for the calendar
    "primary", carrying the caller's event identifier and draft unchanged.
    Its outcome is the provider's: the provider's event for a create or an
    update, the success marker for a delete whatever the provider's body
    was, the provider's error otherwise. *)
Theorem mutations_send_one_request {P : Provider} (uid : string)
    (w : World P) (client : Client) :
  fst (getCalendarClient uid w) = Ret client ->
  (forall event,
      createEvent uid event w
      = (outcome_of (fst (events_insert P client "primary" event (remote w))),
         world_with w (snd (events_insert P client "primary" event (remote w)))
                    [EventsInsert "primary" event])) /\
  (forall eventId event,
      updateEvent uid eventId event w
      = (outcome_of
           (fst (events_update P client "primary" eventId event (remote w))),
         world_with w
           (snd (events_update P client "primary" eventId event (remote w)))
           [EventsUpdate "primary" eventId event])) /\
  (forall eventId,
      deleteEvent uid eventId w
      = (match fst (events_delete P client "primary" eventId (remote w)) with
         | inl e => Throw e
         | inr _ => Ret true
         end,
         world_with w (snd (events_delete P client "primary" eventId (remote w)))
                    [EventsDelete "primary" eventId])).
Proof.
  intros Hc. apply getCalendarClient_run in Hc.
  repeat split.
  - intros event. unfold createEvent.
    erewrite bind_ret by exact Hc.
    destruct (fst (events_insert P client "primary" event (remote w))) eqn:E.
    + now erewrite bind_throw by (apply call_fail; exact E).
    + now erewrite bind_ret by (apply call_ok; exact E).
  - intros eventId event. unfold updateEvent.
    erewrite bind_ret by exact Hc.
    destruct (fst (events_update P client "primary" eventId event (remote w)))
      eqn:E.
    + now erewrite bind_throw by (apply call_fail; exact E).
    + now erewrite bind_ret by (apply call_ok; exact E).
  - intros eventId. unfold deleteEvent.
    erewrite bind_ret by exact Hc.
    destruct (fst (events_delete P client "primary" eventId (remote w))) eqn:E.
    + now erewrite bind_throw by (apply call_fail; exact E).
    + now erewrite bind_ret by (apply call_ok; exact E).
Qed.

Lemma mutations_send_one_request_witness :
  deleteEvent "ann" "ev1" (Demo.world Demo.endless 0)
  = (Ret true,
     Build_World Demo.endless Demo.table 1 [EventsDelete "primary" "ev1"]).
Proof.
  pose proof (mutations_send_one_request "ann" (Demo.world Demo.endless 0)
                Demo.ann eq_refl) as (_ & _ & Hdel).
  apply (Hdel "ev1").
Defined.

(** X7.  Every error [getEvents] or [listCalendars] throws is a fresh plain
    error: it has a message and nothing else, the code, the status and the
    response body of the failure it stands for are not passed on. *)
Theorem thrown_errors_plain {P : Provider} (uid : string) (w w' : World P)
    (e : JsError) :
  (forall fuel timeMin timeMax sel,
      getEvents fuel uid timeMin timeMax sel w = (Throw e, w') ->
      exists m, e = mkError m) /\
  (listCalendars uid w = (Throw e, w') -> exists m, e = mkError m).
Proof.
  split.
  - intros fuel timeMin timeMax sel H.
    apply try_catch_throw_inv in H. destruct H as (e0 & _ & ->).
    unfold getEvents_catch.
    repeat match goal with
           | |- context [if ?b then _ else _] => destruct b
           end; eexists; reflexivity.
  - intros H. apply try_catch_throw_inv in H. destruct H as (e0 & _ & ->).
    eexists. reflexivity.
Qed.

Lemma thrown_errors_plain_witness :
  exists m, mkError msg_AuthExpired = mkError m.
Proof.
  eapply (proj1 (thrown_errors_plain "ann" (Demo.world Demo.expired 0) _ _)
            3 None None (Some (One "A"))).
  reflexivity.
Defined.

(** ** Further properties: the requests of any run of getEvents *)

Section Requests.
Context {P : Provider}.

Lemma fetch_pages_log fuel :
  forall calendar mk calId tok allItems (w : World P),
  exists l,
    log (snd (fetch_pages fuel calendar mk calId tok allItems w)) = log w ++ l /\
    Forall (fun req => exists t, req = EventsList (mk t)) l /\
    db (snd (fetch_pages fuel calendar mk calId tok allItems w)) = db w.
Proof.
  induction fuel as [| fuel IH]; intros calendar mk calId tok allItems w.
  - exists []. simpl. now rewrite app_nil_r.
  - destruct (fst (events_list P calendar (mk tok) (remote w))) as [e | p] eqn:Hp.
    + rewrite (fetch_pages_step_fail _ _ _ _ _ _ _ _ Hp).
      exists [EventsList (mk tok)]. repeat split.
      constructor; [now exists tok | constructor].
    + rewrite (fetch_pages_step _ _ _ _ _ _ _ _ Hp).
      destruct (Js.truthy (nextPageToken p)).
      * destruct (IH calendar mk calId (nextPageToken p)
                    (allItems ++ page_items calId p)
                    (world_with w (snd (events_list P calendar (mk tok) (remote w)))
                                [EventsList (mk tok)]))
          as (l & Hl & Hall & Hdb).
        exists (EventsList (mk tok) :: l). repeat split.
        -- rewrite Hl. simpl. now rewrite <- app_assoc.
        -- constructor; [now exists tok | exact Hall].
        -- exact Hdb.
      * exists [EventsList (mk tok)]. repeat split.
        constructor; [now exists tok | constructor].
Qed.

Lemma query_of_listing timeMin timeMax (r : Remote P) calId tok :
  listing_query (P := P) timeMin timeMax
                (EventsList (query_of timeMin timeMax r calId tok)).
Proof.
  eexists. split; [reflexivity |]. repeat split.
  cbn [q_timeMin query_of queryParams]. unfold Js.or_else.
  destruct (Js.truthy timeMin) eqn:E.
  - destruct timeMin; [reflexivity | discriminate].
  - now exists r.
Qed.

Lemma for_calendars_log calIds :
  forall fuel calendar timeMin timeMax allItems (w : World P),
  exists l,
    log (snd (for_calendars fuel calendar timeMin timeMax calIds allItems w))
    = log w ++ l /\
    Forall (listing_query (P := P) timeMin timeMax) l /\
    db (snd (for_calendars fuel calendar timeMin timeMax calIds allItems w))
    = db w.
Proof.
  induction calIds as [| c cs IH]; intros fuel calendar timeMin timeMax allItems w.
  - exists []. simpl. now rewrite app_nil_r.
  - rewrite for_calendars_cons. unfold bind.
    destruct (fetch_pages_log fuel calendar
                (query_of timeMin timeMax (remote w) c) c None allItems w)
      as (l1 & Hl1 & Hall1 & Hdb1).
    assert (Hq : Forall (listing_query (P := P) timeMin timeMax) l1).
    { eapply Forall_impl; [| exact Hall1].
      intros req [t ->]. apply query_of_listing. }
    destruct (fetch_pages fuel calendar (query_of timeMin timeMax (remote w) c)
                          c None allItems w) as [[mid | e |] w1];
      cbn [snd] in *.
    + destruct (IH fuel calendar timeMin timeMax mid w1) as (l2 & Hl2 & Hall2 & Hdb2).
      exists (l1 ++ l2). repeat split.
      * rewrite Hl2, Hl1. now rewrite app_assoc.
      * apply Forall_app. now split.
      * congruence.
    + now exists l1.
    + now exists l1.
Qed.

Lemma try_catch_throw_world {A} (body : M P A) handler (w : World P) :
  snd (try_catch body (fun error => throw (handler error)) w) = snd (body w).
Proof.
  unfold try_catch, throw. now destruct (body w) as [[a | e |] w1].
Qed.

Lemma select_calendars_log uid sel (w : World P) :
  exists enum,
    log (snd (select_calendars uid sel w)) = log w ++ enum /\
    (enum = [] \/ (enum = [CalendarListList] /\ sel_truthy sel = false)) /\
    db (snd (select_calendars uid sel w)) = db w.
Proof.
  unfold select_calendars. destruct (sel_truthy sel).
  - exists []. simpl. rewrite app_nil_r. auto.
  - unfold bind, listCalendars.
    destruct (getCalendarClient uid w) as [r w0] eqn:Hc.
    pose proof (getCalendarClient_world _ _ _ _ Hc) as ->.
    destruct r as [client | e |].
    + assert (Hrun : try_catch
                (calendar <- getCalendarClient uid ;;
                 response <- call CalendarListList (calendarList_list P calendar) ;;
                 ret (match response with Some l => l | None => [] end))
                (fun error => throw (listCalendars_catch error)) w
              = (match fst (calendarList_list P client (remote w)) with
                 | inl e => Throw (listCalendars_catch e)
                 | inr cals => Ret (match cals with Some l => l | None => [] end)
                 end,
                 world_with w (snd (calendarList_list P client (remote w)))
                            [CalendarListList])).
      { unfold try_catch. erewrite bind_ret by exact Hc.
        destruct (fst (calendarList_list P client (remote w))) eqn:E.
        - now erewrite bind_throw by (apply call_fail; exact E).
        - now erewrite bind_ret by (apply call_ok; exact E). }
      rewrite Hrun.
      exists [CalendarListList].
      destruct (fst (calendarList_list P client (remote w))); simpl; auto.
    + exists []. unfold try_catch. erewrite bind_throw by exact Hc.
      simpl. rewrite app_nil_r. auto.
    + exists []. unfold try_catch. erewrite bind_diverge by exact Hc.
      simpl. rewrite app_nil_r. auto.
Qed.

End Requests.

(** X8.  Whatever the outcome of [getEvents] (a result, an error, or a
    pagination still under way), what it has sent is: at most one
    calendar-list request, first, and only when no calendar was named; then
    event listings only, each with page size 250, recurring events expanded,
    ordered by start time, with the caller's upper bound and as lower bound
    the caller's when given and a clock reading otherwise.  It sends no
    insert, update or delete. *)
Theorem getEvents_requests {P : Provider} (fuel : nat) (uid : string)
    (timeMin timeMax : option string) (sel : option CalendarSel)
    (w : World P) :
  exists enum l,
    log (snd (getEvents fuel uid timeMin timeMax sel w)) = log w ++ enum ++ l /\
    (enum = [] \/ (enum = [CalendarListList] /\ sel_truthy sel = false)) /\
    Forall (listing_query (P := P) timeMin timeMax) l.
Proof.
  unfold getEvents. rewrite try_catch_throw_world. unfold bind.
  destruct (getCalendarClient uid w) as [r w0] eqn:Hc.
  pose proof (getCalendarClient_world _ _ _ _ Hc) as ->.
  destruct r as [client | e |];
    try solve [exists [], []; simpl; rewrite app_nil_r; auto].
  destruct (select_calendars_log uid sel w) as (enum & Hlog & Henum & Hdb).
  destruct (select_calendars uid sel w) as [[calIds | e |] w1]; cbn [snd] in *.
  - destruct (for_calendars_log calIds fuel client timeMin timeMax [] w1)
      as (l & Hl & Hall & Hdb').
    exists enum, l. repeat split; try assumption.
    rewrite Hl, Hlog. now rewrite app_assoc.
  - exists enum, []. rewrite app_nil_r. auto.
  - exists enum, []. rewrite app_nil_r. auto.
Qed.

Lemma for_calendars_queried {P : Provider} calIds :
  forall fuel calendar timeMin timeMax allItems (w : World P) evs w',
    for_calendars fuel calendar timeMin timeMax calIds allItems w = (Ret evs, w') ->
    exists l,
      log w' = log w ++ l /\
      (forall c, In c calIds -> queried l c) /\
      length calIds <= length l.
Proof.
  induction calIds as [| c cs IH];
    intros fuel calendar timeMin timeMax allItems w evs w' Hfor.
  - injection Hfor as _ <-. exists []. rewrite app_nil_r.
    repeat split; [intros c [] | simpl; lia].
  - rewrite for_calendars_cons in Hfor.
    apply bind_inv_ret in Hfor. destruct Hfor as (mid & w2 & H1 & H2).
    apply fetch_pages_tagged in H1; [| reflexivity].
    destruct H1 as (new1 & l1 & _ & Hl1 & _ & Hq1).
    destruct (IH _ _ _ _ _ _ _ _ H2) as (l2 & Hl2 & Hq2 & Hlen).
    exists (l1 ++ l2). repeat split.
    + rewrite Hl2, Hl1. now rewrite app_assoc.
    + intros c' [<- | Hin]; [now apply queried_app_l |].
      apply queried_app_r. now apply Hq2.
    + rewrite length_app. simpl.
      destruct l1 as [| x l1]; [| simpl; lia].
      destruct Hq1 as (q & [] & _).
Qed.

(** X9.  A successful run has asked every selected calendar for events at least
    once, also a calendar that has none: by then there are at least as many
    event listings in the log as calendars selected. *)
Theorem getEvents_queries_every_calendar {P : Provider} (fuel : nat)
    (uid : string) (timeMin timeMax : option string)
    (sel : option CalendarSel) (w w' : World P) (evs : list Event) :
  getEvents fuel uid timeMin timeMax sel w = (Ret evs, w') ->
  exists calIds w1 l,
    select_calendars uid sel w = (Ret calIds, w1) /\
    log w' = log w1 ++ l /\
    (forall c, In c calIds -> queried l c) /\
    length calIds <= length l.
Proof.
  intros H. apply getEvents_ret_inv in H.
  destruct H as (client & calIds & w1 & _ & Hsel & Hfor).
  apply for_calendars_queried in Hfor.
  destruct Hfor as (l & Hl & Hq & Hlen).
  now exists calIds, w1, l.
Qed.

(** Calendars B and A of the demo provider are each asked once or more. *)
Lemma getEvents_queries_every_calendar_witness :
  exists calIds w1 l,
    select_calendars "ann" (Some (Many ["B"; "A"])) (Demo.world Demo.provider 0)
    = (Ret calIds, w1) /\
    log (Build_World Demo.provider Demo.table 3
           [ EventsList (queryParams Demo.now "B" None None None);
             EventsList (queryParams Demo.now "A" None None None);
             EventsList (queryParams Demo.now "A" None None (Some "t1")) ])
    = log w1 ++ l /\
    (forall c, In c calIds -> queried l c) /\
    length calIds <= length l.
Proof.
  apply (getEvents_queries_every_calendar 2 "ann" None None
           (Some (Many ["B"; "A"])) (Demo.world Demo.provider 0) _
           (map (set_calendarId "B") [Demo.ev "B1"; Demo.ev "B2"]
            ++ map (set_calendarId "A")
                 [Demo.ev "A1"; Demo.ev "A2"; Demo.ev "A3"])).
  reflexivity.
Defined.

(** ** Further properties: pagination has no bound *)

Lemma fetch_pages_endless {P : Provider} fuel :
  forall calendar mk calId tok allItems (w : World P),
    (forall t r, exists p,
        fst (events_list P calendar (mk t) r) = inr p /\
        Js.truthy (nextPageToken p) = true) ->
    fst (fetch_pages fuel calendar mk calId tok allItems w) = Diverge /\
    length (log (snd (fetch_pages fuel calendar mk calId tok allItems w)))
    = length (log w) + fuel.
Proof.
  induction fuel as [| fuel IH]; intros calendar mk calId tok allItems w Hmore.
  - simpl. split; [reflexivity | lia].
  - destruct (Hmore tok (remote w)) as (p & Hp & Ht).
    rewrite (fetch_pages_step _ _ _ _ _ _ _ _ Hp), Ht.
    destruct (IH calendar mk calId (nextPageToken p)
                (allItems ++ page_items calId p)
                (world_with w (snd (events_list P calendar (mk tok) (remote w)))
                            [EventsList (mk tok)]) Hmore) as [Hd Hlen].
    split; [exact Hd |].
    rewrite Hlen. simpl. rewrite length_app. simpl. lia.
Qed.

(** X10.  The service puts no cap on the pages of a calendar.  If the provider
    answers every page request of the first selected calendar with a page
    that carries a continuation token, [getEvents] neither returns nor
    throws: whatever number of page requests it is allowed, it has spent
    them all on that calendar and is still paginating. *)
Theorem getEvents_unbounded_pagination {P : Provider} (uid : string)
    (timeMin timeMax : option string) (sel : option CalendarSel)
    (w w1 : World P) (client : Client) (c : string) (rest : list string) :
  fst (getCalendarClient uid w) = Ret client ->
  select_calendars uid sel w = (Ret (c :: rest), w1) ->
  (forall t r, exists p,
      fst (events_list P client (query_of timeMin timeMax (remote w1) c t) r)
      = inr p /\
      Js.truthy (nextPageToken p) = true) ->
  forall fuel,
    fst (getEvents fuel uid timeMin timeMax sel w) = Diverge /\
    length (log (snd (getEvents fuel uid timeMin timeMax sel w)))
    = length (log w1) + fuel.
Proof.
  intros Hc Hsel Hmore fuel. apply getCalendarClient_run in Hc.
  rewrite (getEvents_run _ _ _ _ _ _ _ _ _ Hc Hsel).
  unfold try_catch. rewrite for_calendars_cons. unfold bind.
  destruct (fetch_pages_endless fuel client
              (query_of timeMin timeMax (remote w1) c) c None [] w1 Hmore)
    as [Hd Hlen].
  destruct (fetch_pages fuel client (query_of timeMin timeMax (remote w1) c)
                        c None [] w1) as [r w2].
  simpl in Hd, Hlen. subst r. now split.
Qed.

Lemma getEvents_unbounded_pagination_witness :
  fst (getEvents 40 "ann" None None None (Demo.world Demo.endless 0)) = Diverge /\
  length (log (snd (getEvents 40 "ann" None None None
                              (Demo.world Demo.endless 0)))) = 1 + 40.
Proof.
  refine (getEvents_unbounded_pagination "ann" None None None
            (Demo.world Demo.endless 0)
            (Build_World Demo.endless Demo.table 1 [CalendarListList])
            Demo.ann "A" [] eq_refl eq_refl _ 40).
  intros t r. eexists. split; reflexivity.
Defined.

(** ** Further properties: the kinds can be told apart *)

(** X11.  The messages of the six kinds are pairwise distinct, the two that echo
    a detail included: an error of one kind is of no other kind, so that a
    caller can tell the kind from the message alone. *)
Theorem has_kind_exclusive (e : JsError) (k k' : ErrorKind) :
  has_kind k e -> k' <> k -> ~ has_kind k' e.
Proof.
  intros Hk Hne Hk'.
  destruct k, k'; try (now elim Hne); cbn in Hk, Hk';
    repeat match goal with
           | H : exists _, _ |- _ => destruct H as [? H]
           end;
    rewrite Hk in Hk'; discriminate.
Qed.

Lemma has_kind_exclusive_witness :
  ~ has_kind AccessDenied (getEvents_catch Demo.e401).
Proof.
  apply (has_kind_exclusive (getEvents_catch Demo.e401) AuthExpired AccessDenied).
  - reflexivity.
  - discriminate.
Defined.

(** ** Further properties: a persisted rotation *)

Lemma persist_rows (uid : string) (run : ListenerRun) (tbl : list Account) :
  persist uid run tbl = map (rotated_row uid run) tbl.
Proof.
  assert (Hrow : forall a,
             fold_left (fun x u => if accepted run u then update_row u x else x)
                       (on_tokens uid run) a
             = rotated_row uid run a).
  { intros a.
    unfold on_tokens, rotated_row, update_row, accepted, access_written,
      refresh_written, refresh_issued, reaches_second_test,
      writes_access, writes_refresh.
    destruct (Js.truthy (t_access_token (at_start run))) eqn:Ha;
      [destruct (truthy_true_cases _ Ha) as (va & Hva & _) |];
      (destruct (Js.truthy (t_refresh_token (at_second_test run))) eqn:Hr;
       [destruct (truthy_true_cases _ Hr) as (vr & Hvr & _) |]);
      destruct (access_accepted run); destruct (refresh_accepted run);
      cbn [andb fold_left where_userId set_accessToken set_refreshToken
           set_updatedAt];
      rewrite ?Hva, ?Hvr;
      cbn [andb fold_left where_userId set_accessToken set_refreshToken
           set_updatedAt];
      destruct (userId a =? uid) eqn:E; cbn [userId]; rewrite ?E;
      try reflexivity; now destruct a. }
  unfold persist. rewrite <- (map_ext _ _ Hrow).
  generalize (on_tokens uid run) as ws. clear Hrow.
  intros ws. revert tbl.
  induction ws as [| u ws IH]; intros tbl; cbn [fold_left].
  - now rewrite map_id.
  - rewrite IH. destruct (accepted run u); [| reflexivity].
    unfold run_update. now rewrite map_map.
Qed.

Lemma select_account_map (f : Account -> Account) (uid : string)
      (tbl : list Account) :
  (forall a, userId (f a) = userId a) ->
  select_account uid (map f tbl) = map f (select_account uid tbl).
Proof.
  intros Hf. unfold select_account. rewrite <- firstn_map. f_equal.
  induction tbl as [| a tbl IH]; [reflexivity |].
  simpl. rewrite Hf. destruct (userId a =? uid); simpl; now rewrite IH.
Qed.

Lemma rotated_row_userId uid run a :
  userId (rotated_row uid run a) = userId a.
Proof. unfold rotated_row. now destruct (userId a =? uid). Qed.

Lemma credential_record_persist uid' uid run tbl :
  credential_record uid' (persist uid run tbl)
  = option_map (rotated_row uid run) (credential_record uid' tbl).
Proof.
  unfold credential_record.
  rewrite persist_rows, select_account_map by apply rotated_row_userId.
  now destruct (select_account uid' tbl).
Qed.

Lemma credential_record_userId uid tbl a :
  credential_record uid tbl = Some a -> (userId a =? uid) = true.
Proof.
  unfold credential_record, select_account.
  induction tbl as [| b tbl IH]; [discriminate |].
  simpl. destruct (userId b =? uid) eqn:E; [| exact IH].
  simpl. now intros [= <-].
Qed.

(** X12.  Write then read.  Once the listener has run, resolving the same
    user again succeeds as before.  The client is bound to the event's
    access token when the store took that update, and to the refresh token
    the payload carried at the listener's second test when that update was
    issued and taken; a column the store took no update of gives the token
    that was stored. *)
Theorem rotation_then_resolve {P : Provider} (uid : string)
    (run : ListenerRun) (w : World P) (client : Client) :
  fst (getCalendarClient uid w) = Ret client ->
  fst (getCalendarClient uid (with_db w (persist uid run (db w))))
  = Ret {| access_token := if access_written run
                           then Js.template (t_access_token (at_start run))
                           else access_token client;
           refresh_token := if refresh_written run
                            then t_refresh_token (at_second_test run)
                            else refresh_token client;
           owner := uid |}.
Proof.
  rewrite !getCalendarClient_outcome. cbn [fst db with_db].
  rewrite credential_record_persist.
  destruct (credential_record uid (db w)) as [a |] eqn:Hrec; [| discriminate].
  pose proof (credential_record_userId _ _ _ Hrec) as Hu.
  cbn [option_map]. unfold rotated_row. rewrite Hu.
  cbn [accessToken refreshToken scope].
  destruct (Js.truthy (accessToken a)) eqn:Ht; cbn [negb]; [| discriminate].
  destruct (Js.truthy (scope a) && negb (has_calendar_capability (scope a)));
    [discriminate |].
  intros [= <-]. cbn [access_token refresh_token].
  destruct (access_written run) eqn:Hw.
  - unfold access_written in Hw. apply andb_prop in Hw. destruct Hw as [Hn _].
    now rewrite Hn.
  - now rewrite Ht.
Qed.

(** ann after the run in which the emitter filled the payload in: the new
    access token, and the refresh token the emitter held. *)
Lemma rotation_then_resolve_witness :
  fst (getCalendarClient "ann"
         (with_db (Demo.world Demo.provider 0)
            (persist "ann" Demo.filled_in Demo.table)))
  = Ret {| access_token := "a1"; refresh_token := Some "r0"; owner := "ann" |}.
Proof.
  apply (rotation_then_resolve "ann" Demo.filled_in
           (Demo.world Demo.provider 0) Demo.ann).
  reflexivity.
Defined.

(** X13.  A run of the listener for one user changes nothing for another,
    whatever the payload held and whatever the store took: every other user
    resolves, or fails to, exactly as before. *)
Theorem rotation_other_users {P : Provider} (uid uid' : string)
    (run : ListenerRun) (w : World P) :
  uid' <> uid ->
  fst (getCalendarClient uid' (with_db w (persist uid run (db w))))
  = fst (getCalendarClient uid' w).
Proof.
  intros Hne. rewrite !getCalendarClient_outcome. cbn [fst db with_db].
  rewrite credential_record_persist.
  destruct (credential_record uid' (db w)) as [a |] eqn:Hrec; [| reflexivity].
  pose proof (credential_record_userId _ _ _ Hrec) as Hu.
  apply String.eqb_eq in Hu.
  cbn [option_map]. unfold rotated_row.
  destruct (String.eqb_spec (userId a) uid) as [E | _]; [congruence | reflexivity].
Qed.

Lemma rotation_other_users_witness :
  fst (getCalendarClient "dan"
         (with_db (Demo.world Demo.provider 0)
            (persist "ann" (quiet Demo.rotated 10 11) Demo.table)))
  = fst (getCalendarClient "dan" (Demo.world Demo.provider 0)).
Proof.
  apply (rotation_other_users "ann" "dan" (quiet Demo.rotated 10 11)
           (Demo.world Demo.provider 0)).
  discriminate.
Defined.

(** X14.  Running the listener a second time on the same run (same payload,
    same answers of the store, same times) changes nothing more, and an
    event that reports neither token writes nothing, time stamps
    included. *)
Theorem persist_idempotent (uid : string) (run : ListenerRun)
    (tbl : list Account) :
  persist uid run (persist uid run tbl) = persist uid run tbl /\
  (Js.truthy (t_access_token (at_start run)) = false ->
   Js.truthy (t_refresh_token (at_start run)) = false ->
   persist uid run tbl = tbl).
Proof.
  split.
  - rewrite !persist_rows, map_map. apply map_ext. intros a.
    unfold rotated_row at 2.
    destruct (userId a =? uid) eqn:E.
    + unfold rotated_row. cbn [userId accessToken refreshToken scope updatedAt].
      rewrite E.
      destruct (access_written run); destruct (refresh_written run);
        reflexivity.
    + unfold rotated_row. now rewrite E.
  - intros Ha Hr. unfold persist, on_tokens, at_second_test.
    now rewrite Ha, Hr.
Qed.

Lemma persist_idempotent_witness :
  persist "ann" (quiet {| t_access_token := Some "";
                          t_refresh_token := None |} 10 11)
          Demo.table = Demo.table.
Proof.
  apply (proj2 (persist_idempotent "ann"
                  (quiet {| t_access_token := Some "";
                            t_refresh_token := None |} 10 11)
                  Demo.table)); reflexivity.
Defined.

(** ** Further properties: the service keeps nothing between calls *)

Section Stable.
Context {P : Provider}.
Hypothesis Hstateless : stateless P.

Lemma stable_ret {A} (a : A) : stable (P := P) (ret a).
Proof. intros w. split; [reflexivity | now intros w' _]. Qed.

Lemma stable_throw {A} (e : JsError) : stable (P := P) (A := A) (throw e).
Proof. intros w. split; [reflexivity | now intros w' _]. Qed.

Lemma stable_diverge {A} : stable (P := P) (A := A) diverge.
Proof. intros w. split; [reflexivity | now intros w' _]. Qed.

Lemma stable_bind {A B} (m : M P A) (k : A -> M P B) :
  stable m -> (forall a, stable (k a)) -> stable (bind m k).
Proof.
  intros Hm Hk w. destruct (Hm w) as [Hdb Hres]. unfold bind. split.
  - destruct (m w) as [[a | e |] w1]; cbn [snd] in *; try exact Hdb.
    destruct (Hk a w1) as [Hdb1 _]. congruence.
  - intros w' Hw'. specialize (Hres w' Hw').
    destruct (Hm w') as [Hdb' _].
    destruct (m w) as [[a | e |] w1], (m w') as [[a' | e' |] w1'];
      cbn [fst snd] in *; try discriminate; try reflexivity.
    + injection Hres as ->.
      destruct (Hk a w1) as [_ Hk1]. apply Hk1. congruence.
    + now injection Hres as ->.
Qed.

Lemma stable_try_catch {A} (body : M P A) (handler : JsError -> M P A) :
  stable body -> (forall e, stable (handler e)) ->
  stable (try_catch body handler).
Proof.
  intros Hm Hk w. destruct (Hm w) as [Hdb Hres]. unfold try_catch. split.
  - destruct (body w) as [[a | e |] w1]; cbn [snd] in *; try exact Hdb.
    destruct (Hk e w1) as [Hdb1 _]. congruence.
  - intros w' Hw'. specialize (Hres w' Hw').
    destruct (Hm w') as [Hdb' _].
    destruct (body w) as [[a | e |] w1], (body w') as [[a' | e' |] w1'];
      cbn [fst snd] in *; try discriminate; try reflexivity.
    + exact Hres.
    + injection Hres as ->.
      destruct (Hk e w1) as [_ Hk1]. apply Hk1. congruence.
Qed.

Lemma stable_call {A} req (step : Remote P -> (JsError + A) * Remote P) :
  (forall r r', fst (step r) = fst (step r')) -> stable (call req step).
Proof.
  intros Hstep w. unfold call. split.
  - destruct (step (remote w)) as [[e | a] r]; reflexivity.
  - intros w' _. specialize (Hstep (remote w') (remote w)).
    destruct (step (remote w)) as [[e | a] r],
             (step (remote w')) as [[e' | a'] r'];
      cbn [fst] in *; congruence.
Qed.

Lemma stable_getCalendarClient uid : stable (P := P) (getCalendarClient uid).
Proof.
  intros w. split.
  - now rewrite getCalendarClient_outcome.
  - intros w' Hw'. rewrite !getCalendarClient_outcome. cbn [fst]. now rewrite Hw'.
Qed.

Lemma stable_listCalendars uid : stable (P := P) (listCalendars uid).
Proof.
  apply stable_try_catch; [| intros e; apply stable_throw].
  apply stable_bind; [apply stable_getCalendarClient |].
  intros client. apply stable_bind; [| intros r; apply stable_ret].
  apply stable_call. intros r r'. apply Hstateless.
Qed.

Lemma stable_select_calendars uid sel :
  stable (P := P) (select_calendars uid sel).
Proof.
  unfold select_calendars. destruct (sel_truthy sel); [apply stable_ret |].
  apply stable_bind; [apply stable_listCalendars | intros c; apply stable_ret].
Qed.

Lemma stable_fetch_pages fuel :
  forall calendar mk calId tok allItems,
    stable (P := P) (fetch_pages fuel calendar mk calId tok allItems).
Proof.
  induction fuel as [| fuel IH]; intros calendar mk calId tok allItems.
  - apply stable_diverge.
  - cbn [fetch_pages]. apply stable_bind.
    + apply stable_call. intros r r'. apply Hstateless.
    + intros response.
      destruct (Js.truthy (nextPageToken response)); [apply IH | apply stable_ret].
Qed.

Lemma stable_for_calendars fuel calendar timeMin timeMax calIds :
  forall allItems,
    stable (P := P)
           (for_calendars fuel calendar timeMin timeMax calIds allItems).
Proof.
  induction calIds as [| c cs IH]; intros allItems.
  - apply stable_ret.
  - cbn [for_calendars]. apply stable_bind.
    + intros w. split; [reflexivity |].
      intros w' _. unfold read_now. cbn [fst]. f_equal. apply Hstateless.
    + intros now. apply stable_bind; [apply stable_fetch_pages | apply IH].
Qed.

Lemma stable_getEvents fuel uid timeMin timeMax sel :
  stable (P := P) (getEvents fuel uid timeMin timeMax sel).
Proof.
  apply stable_try_catch; [| intros e; apply stable_throw].
  apply stable_bind; [apply stable_getCalendarClient |].
  intros client.
  apply stable_bind; [apply stable_select_calendars |].
  intros calIds. apply stable_for_calendars.
Qed.

End Stable.

Section Accumulator.
Context {P : Provider}.

Lemma prepend_prepend a b (r : Res (list Event)) :
  prepend a (prepend b r) = prepend (a ++ b) r.
Proof. destruct r; simpl; now rewrite ?app_assoc. Qed.

(** The events collected so far play no part in what a loop does next. *)
Lemma fetch_pages_acc fuel :
  forall calendar mk calId tok allItems (w : World P),
    fetch_pages fuel calendar mk calId tok allItems w
    = (prepend allItems (fst (fetch_pages fuel calendar mk calId tok [] w)),
       snd (fetch_pages fuel calendar mk calId tok [] w)).
Proof.
  induction fuel as [| fuel IH]; intros calendar mk calId tok allItems w.
  - reflexivity.
  - destruct (fst (events_list P calendar (mk tok) (remote w))) as [e | p] eqn:Hp.
    + now rewrite !(fetch_pages_step_fail _ _ _ _ _ _ _ _ Hp).
    + rewrite !(fetch_pages_step _ _ _ _ _ _ _ _ Hp).
      destruct (Js.truthy (nextPageToken p)).
      * rewrite (IH _ _ _ _ (allItems ++ page_items calId p)).
        rewrite (IH _ _ _ _ ([] ++ page_items calId p)).
        cbn [fst snd]. now rewrite prepend_prepend.
      * reflexivity.
Qed.

Lemma for_calendars_acc fuel calendar timeMin timeMax calIds :
  forall allItems (w : World P),
    for_calendars fuel calendar timeMin timeMax calIds allItems w
    = (prepend allItems
         (fst (for_calendars fuel calendar timeMin timeMax calIds [] w)),
       snd (for_calendars fuel calendar timeMin timeMax calIds [] w)).
Proof.
  induction calIds as [| c cs IH]; intros allItems w.
  - simpl. unfold ret. now rewrite app_nil_r.
  - rewrite !for_calendars_cons. unfold bind.
    rewrite (fetch_pages_acc fuel calendar _ c None allItems w).
    destruct (fetch_pages fuel calendar (query_of timeMin timeMax (remote w) c)
                          c None [] w) as [[mid | e |] w1];
      cbn [fst snd prepend]; try reflexivity.
    rewrite (IH (allItems ++ mid)), (IH mid).
    cbn [fst snd]. now rewrite prepend_prepend.
Qed.

Lemma for_calendars_app fuel calendar timeMin timeMax l1 l2 :
  forall allItems (w : World P),
    for_calendars fuel calendar timeMin timeMax (l1 ++ l2) allItems w
    = bind (for_calendars fuel calendar timeMin timeMax l1 allItems)
           (for_calendars fuel calendar timeMin timeMax l2) w.
Proof.
  induction l1 as [| c cs IH]; intros allItems w.
  - reflexivity.
  - cbn [app]. rewrite for_calendars_cons. unfold bind.
    rewrite for_calendars_cons. unfold bind.
    destruct (fetch_pages fuel calendar (query_of timeMin timeMax (remote w) c)
                          c None allItems w) as [[mid | e |] w1];
      try reflexivity.
    rewrite IH. reflexivity.
Qed.

End Accumulator.

(** X15.  The outcome of [getEvents] depends on the world through the
    accounts table and the provider's answers only.  Against a provider
    that answers the same request the same way, two calls with the same
    arguments, made when the accounts table holds the same rows, give the
    same outcome, whatever the provider has served and the service has sent
    before: no result and no position of an earlier call is kept. *)
Theorem getEvents_repeatable {P : Provider} (fuel : nat) (uid : string)
    (timeMin timeMax : option string) (sel : option CalendarSel)
    (w w' : World P) :
  stateless P ->
  db w' = db w ->
  fst (getEvents fuel uid timeMin timeMax sel w')
  = fst (getEvents fuel uid timeMin timeMax sel w).
Proof.
  intros Hs Hdb.
  destruct (stable_getEvents Hs fuel uid timeMin timeMax sel w) as [_ Hres].
  now apply Hres.
Qed.

(** A second call, started from the provider state and the log the first
    one left, the table being the same. *)
Lemma getEvents_repeatable_witness :
  fst (getEvents 2 "ann" None None None
                 (Build_World Demo.provider Demo.table 4
                    [ CalendarListList;
                      EventsList (queryParams Demo.now "A" None None None);
                      EventsList (queryParams Demo.now "A" None None (Some "t1"));
                      EventsList (queryParams Demo.now "B" None None None) ]))
  = fst (getEvents 2 "ann" None None None (Demo.world Demo.provider 0)).
Proof.
  apply (getEvents_repeatable 2 "ann" None None None
           (Demo.world Demo.provider 0)).
  - repeat split.
  - reflexivity.
Defined.

(** X16.  Against a provider that answers the same request the same way,
    fetching the calendars of two lists in one call gives what fetching
    each list in a call of its own gives, put one after the other. *)
Theorem getEvents_concat {P : Provider} (fuel : nat) (uid : string)
    (timeMin timeMax : option string) (l1 l2 : list string)
    (w : World P) (evs1 evs2 : list Event) :
  stateless P ->
  fst (getEvents fuel uid timeMin timeMax (Some (Many l1)) w) = Ret evs1 ->
  fst (getEvents fuel uid timeMin timeMax (Some (Many l2)) w) = Ret evs2 ->
  fst (getEvents fuel uid timeMin timeMax (Some (Many (l1 ++ l2))) w)
  = Ret (evs1 ++ evs2).
Proof.
  intros Hs H1 H2.
  destruct (getEvents fuel uid timeMin timeMax (Some (Many l1)) w)
    as [r1 w1] eqn:E1.
  destruct (getEvents fuel uid timeMin timeMax (Some (Many l2)) w)
    as [r2 w2] eqn:E2.
  cbn [fst] in H1, H2. subst r1 r2.
  apply getEvents_ret_inv in E1. destruct E1 as (client & c1 & w1' & Hc & Hsel1 & Hf1).
  apply getEvents_ret_inv in E2.
  destruct E2 as (client' & c2 & w2' & Hc' & Hsel2 & Hf2).
  rewrite Hc in Hc'. injection Hc' as <-.
  injection Hsel1 as <- <-. injection Hsel2 as <- <-.
  rewrite (getEvents_run fuel uid timeMin timeMax (Some (Many (l1 ++ l2))) w
             client (l1 ++ l2) w Hc eq_refl).
  unfold try_catch. rewrite for_calendars_app.
  erewrite bind_ret by exact Hf1.
  rewrite for_calendars_acc.
  destruct (stable_for_calendars Hs fuel client timeMin timeMax l2 [] w)
    as [_ Hres].
  destruct (stable_for_calendars Hs fuel client timeMin timeMax l1 [] w)
    as [Hdb1 _].
  rewrite Hf1 in Hdb1. cbn [snd] in Hdb1.
  rewrite (Hres w1 Hdb1), Hf2.
  reflexivity.
Qed.

Lemma getEvents_concat_witness :
  fst (getEvents 2 "ann" None None (Some (Many (["B"] ++ ["A"])))
                 (Demo.world Demo.provider 0))
  = Ret (map (set_calendarId "B") [Demo.ev "B1"; Demo.ev "B2"]
         ++ map (set_calendarId "A") [Demo.ev "A1"; Demo.ev "A2"; Demo.ev "A3"]).
Proof.
  apply (getEvents_concat 2 "ann" None None ["B"] ["A"]
           (Demo.world Demo.provider 0)).
  - repeat split.
  - reflexivity.
  - reflexivity.
Defined.

(** ** updateEvent against a provider that stores the event *)

(** What [updateEvent] does to the provider is one step of its
    [events.update] on the draft as given: the service reads nothing of the
    stored event and merges nothing into the body. *)
Lemma updateEvent_remote {P : Provider} (uid eventId : string)
    (event : PartialEventDraft) (w : World P) (client : Client) :
  fst (getCalendarClient uid w) = Ret client ->
  remote (snd (updateEvent uid eventId event w))
  = snd (events_update P client "primary" eventId event (remote w)).
Proof.
  intros Hc. apply getCalendarClient_run in Hc.
  unfold updateEvent. erewrite bind_ret by exact Hc.
  unfold bind, call.
  destruct (events_update P client "primary" eventId event (remote w))
    as [[e | ev] r]; reflexivity.
Qed.

(** Under a partial update of the provider the omitted fields would stay:
    what C2 says is what [events.patch] would give. *)
Lemma updateEvent_patched_keeps_omitted (eventId : string)
    (event : PartialEventDraft) (stored : Event) :
  Store.omitted_untouched event stored
    (remote (snd (updateEvent "ann" eventId event
                    (Build_World (Store.provider Store.patched)
                                 Demo.table stored [])))).
Proof.
  rewrite (updateEvent_remote "ann" eventId event
             (Build_World (Store.provider Store.patched) Demo.table stored [])
             Demo.ann eq_refl).
  cbn [remote events_update Store.provider].
  destruct ((_ =? _) && (eventId =? id stored));
    cbn [snd]; unfold Store.omitted_untouched, Store.patched;
    cbn [summary description start end_ attendees];
    repeat split; intros H; try rewrite H; reflexivity.
Qed.

(** C2 at the failing input.  The stored event has a description and two
    attendees; the draft gives a new title and new times and leaves both
    out.  [updateEvent] sends the draft in one [events.update] request,
    which replaces the resource: the call succeeds, and the description and
    the attendees are gone from the stored event, so the omitted fields
    were not left untouched. *)
Theorem updateEvent_replaces_omitted_fields :
  fst (updateEvent "ann" "ev1" Store.moved (Store.world Store.replaced))
  = Ret (Store.replaced Store.standup Store.moved) /\
  log (snd (updateEvent "ann" "ev1" Store.moved (Store.world Store.replaced)))
  = [EventsUpdate "primary" "ev1" Store.moved] /\
  description (remote (snd (updateEvent "ann" "ev1" Store.moved
                              (Store.world Store.replaced)))) = None /\
  attendees (remote (snd (updateEvent "ann" "ev1" Store.moved
                            (Store.world Store.replaced)))) = [] /\
  description Store.standup = Some "Daily sync" /\
  ~ Store.omitted_untouched Store.moved Store.standup
      (remote (snd (updateEvent "ann" "ev1" Store.moved
                      (Store.world Store.replaced)))).
Proof.
  repeat split.
  intros (_ & Hd & _). specialize (Hd eq_refl). discriminate Hd.
Qed.
